(** * company_transrate: the paid image-generation relay

    The repository is a design memo (src/memo.md) with three pieces of
    program text that carry behaviour:

    - [app.py]: the Python Lambda [lambda_handler] that checks a payment
      and then generates up to four images in parallel ([Module App]);
    - the Node.js Lambda [handlePayment] that relays a charge to Stripe
      with the order id as idempotency key ([Module Pay]);
    - prose requirements for an order store and a sweep over stuck
      orders, for which the memo holds no program text
      ([Module Design]).

    src/lib/cdk-stack.ts only declares infrastructure and has no
    behaviour to embed. *)

From Stdlib Require Import ZArith QArith String List Lia.
From stdpp Require Import base option list strings pretty gmap fin_maps relations.

Local Open Scope Z_scope.
Local Open Scope string_scope.
Local Open Scope list_scope.

(** ** Python values and exceptions *)

Module Py.

(** A [float], or the value of any number: a finite one is read as the
    rational it denotes.  Numbers are only compared here, never computed
    with. *)
Inductive Number : Type :=
| Finite (q : Q)
| Infinity (negative : bool)
| NaN.

(** The values a decoded JSON event can hold, plus what the mocked
    collaborators can return.  [int] is unbounded, so [Z]; a [dict] has
    string keys and keeps insertion order. *)
#[warnings="-register-all"]
Inductive PyVal : Type :=
| PyNone
| PyBool (b : bool)
| PyInt (n : Z)
| PyFloat (f : Number)
| PyStr (s : string)
| PyList (l : list PyVal)
| PyDict (d : list (string * PyVal)).

(** A raised exception: the builtin class it is an instance of, by the
    name of the most specific one, and [str(e)]. *)
Record PyExc : Type := mkExc { exc_class : string; exc_str : string }.

(** The builtin classes that derive from [BaseException] without
    deriving from [Exception]. *)
Definition outside_Exception : list string :=
  ["BaseException"; "SystemExit"; "KeyboardInterrupt"; "GeneratorExit";
   "BaseExceptionGroup"].

(** [isinstance(e, Exception)]: what an [except Exception] clause asks. *)
Definition is_Exception (e : PyExc) : bool :=
  negb (existsb (String.eqb (exc_class e)) outside_Exception).

Inductive Result (A : Type) : Type :=
| Ok (a : A)
| Raise (e : PyExc).
Arguments Ok {A} a.
Arguments Raise {A} e.

Definition rbind {A B} (r : Result A) (k : A -> Result B) : Result B :=
  match r with
  | Ok a => k a
  | Raise e => Raise e
  end.

Definition type_name (v : PyVal) : string :=
  match v with
  | PyNone => "NoneType"
  | PyBool _ => "bool"
  | PyInt _ => "int"
  | PyFloat _ => "float"
  | PyStr _ => "str"
  | PyList _ => "list"
  | PyDict _ => "dict"
  end.

Definition TypeError (msg : string) : PyExc := mkExc "TypeError" msg.
Definition KeyError (msg : string) : PyExc := mkExc "KeyError" msg.
Definition IndexError (msg : string) : PyExc := mkExc "IndexError" msg.
Definition ValueError (msg : string) : PyExc := mkExc "ValueError" msg.
Definition AttributeError (msg : string) : PyExc := mkExc "AttributeError" msg.

(** The number a numeric value stands for; [bool] is a subclass of [int]. *)
Definition as_number (v : PyVal) : option Number :=
  match v with
  | PyBool b => Some (Finite (if b then 1%Q else 0%Q))
  | PyInt n => Some (Finite (inject_Z n))
  | PyFloat f => Some f
  | _ => None
  end.

Definition Qltb (x y : Q) : bool := negb (Qle_bool y x).

(** [x < y] on numbers: every comparison with a NaN is false. *)
Definition num_lt (x y : Number) : bool :=
  match x, y with
  | NaN, _ | _, NaN => false
  | Finite a, Finite b => Qltb a b
  | Infinity true, Infinity true => false
  | Infinity true, _ => true
  | _, Infinity true => false
  | Infinity false, _ => false
  | Finite _, Infinity false => true
  end.

(** [x <= y] on numbers. *)
Definition num_le (x y : Number) : bool :=
  match x, y with
  | NaN, _ | _, NaN => false
  | Finite a, Finite b => Qle_bool a b
  | Infinity true, _ => true
  | _, Infinity false => true
  | Infinity false, _ => false
  | Finite _, Infinity true => false
  end.

(** [x == y] on numbers. *)
Definition num_eq (x y : Number) : bool :=
  match x, y with
  | Finite a, Finite b => Qeq_bool a b
  | Infinity a, Infinity b => Bool.eqb a b
  | _, _ => false
  end.

Definition of_int (n : Z) : Number := Finite (inject_Z n).

Definition unorderable (op : string) (a b : PyVal) : PyExc :=
  TypeError ("'" ++ op ++ "' not supported between instances of '"
             ++ type_name a ++ "' and '" ++ type_name b ++ "'").

(** [n < v] for an [int] literal [n]: only a number can be ordered
    against an [int]. *)
Definition py_int_lt (n : Z) (v : PyVal) : Result bool :=
  match as_number v with
  | Some x => Ok (num_lt (of_int n) x)
  | None => Raise (unorderable "<" (PyInt n) v)
  end.

(** [v > n] for an [int] literal [n]. *)
Definition py_gt_int (v : PyVal) (n : Z) : Result bool :=
  match as_number v with
  | Some x => Ok (num_lt (of_int n) x)
  | None => Raise (unorderable ">" v (PyInt n))
  end.

(** [v <= n] for an [int] literal [n]. *)
Definition py_le_int (v : PyVal) (n : Z) : Result bool :=
  match as_number v with
  | Some x => Ok (num_le x (of_int n))
  | None => Raise (unorderable "<=" v (PyInt n))
  end.

(** [v != n] for an [int] literal [n]: numbers compare by value, any
    other object differs from an [int]. *)
Definition py_ne_int (v : PyVal) (n : Z) : bool :=
  match as_number v with
  | Some x => negb (num_eq x (of_int n))
  | None => true
  end.

(** [min(a, n)] with the literal second: the builtin keeps its first
    argument unless a later one is strictly smaller. *)
Definition py_min_int (a : PyVal) (n : Z) : Result PyVal :=
  rbind (py_int_lt n a) (fun smaller => Ok (if smaller then PyInt n else a)).

(** [max(n, b)] with the literal first: the builtin keeps its first
    argument unless a later one is strictly greater. *)
Definition py_max_int (n : Z) (b : PyVal) : Result PyVal :=
  rbind (py_gt_int b n) (fun greater => Ok (if greater then b else PyInt n)).

Fixpoint assoc (k : string) (d : list (string * PyVal)) : option PyVal :=
  match d with
  | [] => None
  | (k', v) :: d' => if String.eqb k k' then Some v else assoc k d'
  end.

(** [obj.get(key, default)]: a [dict] method, absent on every other type. *)
Definition py_get (obj : PyVal) (key : string) (default : PyVal) : Result PyVal :=
  match obj with
  | PyDict d => Ok (match assoc key d with Some v => v | None => default end)
  | _ => Raise (AttributeError
                  ("'" ++ type_name obj ++ "' object has no attribute 'get'"))
  end.

Definition not_subscriptable (v : PyVal) : PyExc :=
  TypeError ("'" ++ type_name v ++ "' object is not subscriptable").

(** [obj[key]] for a [str] literal [key]. *)
Definition py_getitem_str (obj : PyVal) (key : string) : Result PyVal :=
  match obj with
  | PyDict d =>
      match assoc key d with
      | Some v => Ok v
      | None => Raise (KeyError ("'" ++ key ++ "'"))
      end
  | PyList _ => Raise (TypeError "list indices must be integers or slices, not str")
  | PyStr _ => Raise (TypeError "string indices must be integers, not 'str'")
  | _ => Raise (not_subscriptable obj)
  end.

(** [obj[0]]. *)
Definition py_getitem_0 (obj : PyVal) : Result PyVal :=
  match obj with
  | PyList (x :: _) => Ok x
  | PyList [] => Raise (IndexError "list index out of range")
  | PyStr (String c _) => Ok (PyStr (String c EmptyString))
  | PyStr EmptyString => Raise (IndexError "string index out of range")
  | PyDict _ => Raise (KeyError "0")
  | _ => Raise (not_subscriptable obj)
  end.

(** [range(v)]: how many items it yields.  Only an [int] is accepted
    ([bool] included); a negative bound yields nothing. *)
Definition py_range (v : PyVal) : Result nat :=
  match v with
  | PyInt n => Ok (Z.to_nat n)
  | PyBool b => Ok (if b then 1%nat else 0%nat)
  | _ => Raise (TypeError
                  ("'" ++ type_name v ++ "' object cannot be interpreted as an integer"))
  end.

End Py.

(** ** app.py *)

Module App.
Import Py.

(** One call made to a collaborator, with what it answered. *)
Inductive Call : Type :=
| CallPayment (token : PyVal) (answer : Result PyVal)
| CallSubscribe (model_id prompt : PyVal) (answer : Result PyVal).

(** A computation that may raise and that logs its collaborator calls;
    the log survives a raise. *)
Definition M (A : Type) : Type := list Call -> Result A * list Call.

Definition ret {A} (a : A) : M A := fun log => (Ok a, log).

Definition bind {A B} (m : M A) (k : A -> M B) : M B :=
  fun log =>
    match m log with
    | (Ok a, log') => k a log'
    | (Raise e, log') => (Raise e, log')
    end.

Definition lift {A} (r : Result A) : M A := fun log => (r, log).

(** [try: body except Exception as e: handler(e)]: an exception that
    is no instance of [Exception] is not caught and goes on to the
    caller. *)
Definition try_except {A} (body : M A) (handler : PyExc -> M A) : M A :=
  fun log =>
    match body log with
    | (Ok a, log') => (Ok a, log')
    | (Raise e, log') =>
        if is_Exception e then handler e log' else (Raise e, log')
    end.

(** An order in which pending calls are made, as a list of picks: each
    pick names, by its position among the calls not yet made, the one
    made next.  A pick out of range is skipped, and the calls no pick
    names come last, in the order they were in. *)
Fixpoint shuffle {A} (picks : list nat) (l : list A) : list A :=
  match picks with
  | [] => l
  | i :: picks' =>
      match l !! i with
      | Some x => x :: shuffle picks' (delete i l)
      | None => shuffle picks' l
      end
  end.

(** What [executor.submit] does with the callable: the outcome, raise
    included, is stored in the future. *)
Definition capture {A} (m : M A) : M (Result A) :=
  fun log => let '(r, log') := m log in (Ok r, log').

Notation "'let*' x ':=' m 'in' k" := (bind m (fun x => k))
  (at level 10, x name, m at level 100, k at level 200, only parsing).

Section Handler.

(** The two patched collaborators.  [payment.request] is called at most
    once per event.  [fal_client.subscribe] is called from worker
    threads: the first argument is the index of the submitted task, so
    the answers may differ per task whatever the thread schedule. *)
Variable payment_request : PyVal -> Result PyVal.
Variable fal_client_subscribe : nat -> PyVal -> PyVal -> Result PyVal.

(** The order in which the worker threads happen to reach
    [fal_client.subscribe], as picks for [shuffle]. *)
Variable thread_schedule : list nat.

Definition call_payment (token : PyVal) : M PyVal :=
  fun log =>
    let r := payment_request token in (r, log ++ [CallPayment token r]).

Definition call_subscribe (task : nat) (model_id prompt : PyVal) : M PyVal :=
  fun log =>
    let r := fal_client_subscribe task model_id prompt in
    (r, log ++ [CallSubscribe model_id prompt r]).

Definition generate_single (task : nat) (model_id prompt : PyVal) : M PyVal :=
  let* res := call_subscribe task model_id prompt in
  lift (rbind (py_getitem_str res "images") (fun images =>
        rbind (py_getitem_0 images) (fun first =>
        py_getitem_str first "url"))).

(** [ThreadPoolExecutor(max_workers=count)]. *)
Definition ThreadPoolExecutor (max_workers : PyVal) : Result unit :=
  rbind (py_le_int max_workers 0) (fun bad =>
    if bad then Raise (ValueError "max_workers must be greater than 0")
    else Ok tt).

(** [[executor.submit(generate_single, model_id, prompt) for _ in range(n)]]:
    every submitted task runs, also when an earlier one raised.  The
    futures are in submission order, and so are the calls listed here;
    the order in which the calls are made is settled by
    [in_worker_threads]. *)
Fixpoint submit_all (task n : nat) (model_id prompt : PyVal)
  : M (list (Result PyVal)) :=
  match n with
  | O => ret []
  | S n' =>
      let* f := capture (generate_single task model_id prompt) in
      let* fs := submit_all (S task) n' model_id prompt in
      ret (f :: fs)
  end.

(** The tasks of a [with ThreadPoolExecutor(...)] block run on worker
    threads: the block ends when all of them have run, and their calls
    were made in the order the threads ran. *)
Definition in_worker_threads {A} (tasks : M A) : M A :=
  fun log =>
    let '(r, calls) := tasks [] in (r, log ++ shuffle thread_schedule calls).

(** [[f.result() for f in futures]]: the first stored raise is re-raised. *)
Fixpoint results (futures : list (Result PyVal)) : Result (list PyVal) :=
  match futures with
  | [] => Ok []
  | f :: fs => rbind f (fun url => rbind (results fs) (fun urls => Ok (url :: urls)))
  end.

(** [max(1, min(event.get('image_count', 1), 4))]. *)
Definition image_count (event : PyVal) : Result PyVal :=
  rbind (py_get event "image_count" (PyInt 1)) (fun requested =>
  rbind (py_min_int requested 4) (fun m =>
  py_max_int 1 m)).

Definition response_402 : PyVal :=
  PyDict [("status_code", PyInt 402); ("image_urls", PyList [])].

Definition response_200 (urls : list PyVal) : PyVal :=
  PyDict [("status_code", PyInt 200); ("image_urls", PyList urls)].

Definition response_500 (e : PyExc) : PyVal :=
  PyDict [("status_code", PyInt 500); ("message", PyStr (exc_str e))].

(** The body of the [try] block. *)
Definition lambda_handler_try (event : PyVal) : M PyVal :=
  let* token := lift (py_get event "one_time_token" PyNone) in
  let* model_id := lift (py_get event "model_name" (PyStr "fal-ai/flux/dev")) in
  let* prompt := lift (py_get event "prompt" PyNone) in
  let* count := lift (image_count event) in
  let* paid := call_payment token in
  if py_ne_int paid 200 then ret response_402
  else
    let* executor := lift (ThreadPoolExecutor count) in
    let* n := lift (py_range count) in
    let* futures := in_worker_threads (submit_all 0 n model_id prompt) in
    let* urls := lift (results futures) in
    ret (response_200 urls).

Definition lambda_handler (event : PyVal) : M PyVal :=
  try_except (lambda_handler_try event) (fun e => ret (response_500 e)).

End Handler.

(** Reading the answer back, the way the tests do. *)
Definition status_code (resp : PyVal) : option PyVal :=
  match resp with PyDict d => assoc "status_code" d | _ => None end.

Definition image_urls (resp : PyVal) : option PyVal :=
  match resp with PyDict d => assoc "image_urls" d | _ => None end.

Definition message (resp : PyVal) : option PyVal :=
  match resp with PyDict d => assoc "message" d | _ => None end.

Definition is_subscribe (c : Call) : bool :=
  match c with CallSubscribe _ _ _ => true | CallPayment _ _ => false end.

(** What one run of the [try] block does, step by step: it raises before
    the payment call and logs nothing, or it makes the payment call and
    goes on as the answer says. *)
Inductive TryRun (payment_request : PyVal -> Result PyVal) (event : PyVal)
    (log : list Call) : Result PyVal * list Call -> Prop :=
| RaisedEarly e :
    image_count event = Raise e ->
    TryRun payment_request event log (Raise e, log)
| PaymentRaised d count e :
    event = PyDict d ->
    image_count event = Ok count ->
    payment_request (default PyNone (assoc "one_time_token" d)) = Raise e ->
    TryRun payment_request event log
      (Raise e, log ++ [CallPayment (default PyNone (assoc "one_time_token" d)) (Raise e)])
| PaymentRefused d count paid :
    event = PyDict d ->
    image_count event = Ok count ->
    payment_request (default PyNone (assoc "one_time_token" d)) = Ok paid ->
    py_ne_int paid 200 = true ->
    TryRun payment_request event log
      (Ok response_402,
       log ++ [CallPayment (default PyNone (assoc "one_time_token" d)) (Ok paid)])
| GenerationRaised d count paid subs e :
    event = PyDict d ->
    image_count event = Ok count ->
    payment_request (default PyNone (assoc "one_time_token" d)) = Ok paid ->
    py_ne_int paid 200 = false ->
    forallb is_subscribe subs = true ->
    TryRun payment_request event log
      (Raise e,
       log ++ CallPayment (default PyNone (assoc "one_time_token" d)) (Ok paid) :: subs)
| Generated d count paid subs c urls :
    event = PyDict d ->
    image_count event = Ok count ->
    payment_request (default PyNone (assoc "one_time_token" d)) = Ok paid ->
    py_ne_int paid 200 = false ->
    forallb is_subscribe subs = true ->
    count = PyInt c -> 1 <= c <= 4 ->
    length subs = Z.to_nat c ->
    length urls = Z.to_nat c ->
    TryRun payment_request event log
      (Ok (response_200 urls),
       log ++ CallPayment (default PyNone (assoc "one_time_token" d)) (Ok paid) :: subs).

End App.

(** ** The payment Lambda ([handlePayment], Node.js) *)

Module Pay.

(** *** Values *)

Inductive JsVal : Type :=
| JsNum (n : Z)
| JsStr (s : string).

(** [JSON.parse(event.body)] for a body that is a JSON object with the
    two string members the handler destructures, and whatever else the
    client put in the object.  (Text that does not parse makes
    [JSON.parse] throw before the [try] block is entered.) *)
Record Body : Type := mkBody {
  order_id : string;
  token : string;
  other_members : gmap string JsVal
}.

(** The first argument of [stripe.charges.create]. *)
Record ChargeParams : Type := mkParams {
  amount : Z;
  currency : string;
  source : string
}.

(** The second argument of [stripe.charges.create]. *)
Record RequestOptions : Type := mkOptions { idempotencyKey : string }.

(** The charge object Stripe answers with. *)
Record Charge : Type := mkCharge {
  charge_id : nat;
  charge_amount : Z;
  charge_currency : string;
  charge_source : string
}.

Record Response : Type := mkResponse { statusCode : Z; body : string }.

Definition dquote : string := String (Ascii.ascii_of_nat 34) EmptyString.

Definition backslash : string := String (Ascii.ascii_of_nat 92) EmptyString.

Definition hex_digit (n : nat) : string :=
  match String.get n "0123456789abcdef" with
  | Some c => String c EmptyString
  | None => EmptyString
  end.

(** How [JSON.stringify] writes one character of a string: the quote,
    the backslash and the control characters are escaped. *)
Definition json_escape_char (c : Ascii.ascii) : string :=
  let n := Ascii.nat_of_ascii c in
  if (n =? 34)%nat then backslash ++ dquote
  else if (n =? 92)%nat then backslash ++ backslash
  else if (n =? 8)%nat then backslash ++ "b"
  else if (n =? 9)%nat then backslash ++ "t"
  else if (n =? 10)%nat then backslash ++ "n"
  else if (n =? 12)%nat then backslash ++ "f"
  else if (n =? 13)%nat then backslash ++ "r"
  else if (n <? 32)%nat then
    backslash ++ "u00" ++ hex_digit (n / 16) ++ hex_digit (n mod 16)
  else String c EmptyString.

Fixpoint json_escape (s : string) : string :=
  match s with
  | EmptyString => EmptyString
  | String c s' => json_escape_char c ++ json_escape s'
  end.

Definition quoted (s : string) : string := dquote ++ json_escape s ++ dquote.

(** [JSON.stringify(charge)] for the members of the charge kept here. *)
Definition JSON_stringify (c : Charge) : string :=
  "{" ++ quoted "id" ++ ":" ++ quoted ("ch_" ++ pretty (charge_id c)) ++ ","
      ++ quoted "amount" ++ ":" ++ pretty (charge_amount c) ++ ","
      ++ quoted "currency" ++ ":" ++ quoted (charge_currency c) ++ ","
      ++ quoted "source" ++ ":" ++ quoted (charge_source c) ++ "}".

(** *** Awaited operations *)

(** What an [await] gives back: the resolved value, or the [message] of
    the error the promise was rejected with. *)
Inductive Outcome (X : Type) : Type :=
| Resolved (x : X)
| Rejected (message : string).
Arguments Resolved {X} x.
Arguments Rejected {X} message.

Inductive Effect : Type -> Type :=
| checkDynamoDB (order_id : string) : Effect bool
| stripe_charges_create (params : ChargeParams) (options : RequestOptions)
    : Effect Charge
| updateDynamoDB (order_id : string) (status : string) : Effect unit.

(** An [async] function body, cut at its [await]s. *)
Inductive Prog (A : Type) : Type :=
| Return (a : A)
| Throw (message : string)
| Await {X : Type} (e : Effect X) (k : Outcome X -> Prog A).
Arguments Return {A} a.
Arguments Throw {A} message.
Arguments Await {A X} e k.

Fixpoint bind {A B} (p : Prog A) (f : A -> Prog B) : Prog B :=
  match p with
  | Return a => f a
  | Throw m => Throw m
  | Await e k => Await e (fun r => bind (k r) f)
  end.

(** [await e]: a rejected promise is thrown at the [await]. *)
Definition await {X} (e : Effect X) : Prog X :=
  Await e (fun r => match r with
                    | Resolved x => Return x
                    | Rejected m => Throw m
                    end).

(** [try { p } catch (error) { handler(error.message) }]. *)
Fixpoint try_catch {A} (p : Prog A) (handler : string -> Prog A) : Prog A :=
  match p with
  | Return a => Return a
  | Throw m => handler m
  | Await e k => Await e (fun r => try_catch (k r) handler)
  end.

Notation "'const' x ':=' p 'in' k" := (bind p (fun x => k))
  (at level 10, x name, p at level 100, k at level 200, only parsing).

Definition handlePayment (event : Body) : Prog Response :=
  let order_id := order_id event in
  let token := token event in
  try_catch
    (const isPaid := await (checkDynamoDB order_id) in
     if isPaid : bool then Return (mkResponse 200 "Already Paid")
     else
       const charge := await (stripe_charges_create
                                (mkParams 1000 "jpy" token)
                                (mkOptions order_id)) in
       const updated := await (updateDynamoDB order_id "Paid") in
       Return (mkResponse 200 (JSON_stringify charge)))
    (fun error_message => Return (mkResponse 500 error_message)).

(** *** The two services *)

(** A DynamoDB item: attribute name to value. *)
Abbreviation Item := (gmap string JsVal).

(** The first result Stripe saved for an idempotency key. *)
Inductive StripeResult : Type :=
| Succeeded (c : Charge)
| Failed (message : string).

(** Who sent a request: which Lambda invocation, handling which order. *)
Record Caller : Type := mkCaller { invocation : nat; handling : string }.

(** Money actually taken by the processor. *)
Record Movement : Type := mkMovement {
  mv_caller : Caller;
  mv_key : string;
  mv_charge : Charge
}.

(** A [stripe.charges.create] request sent by the Lambda. *)
Record GatewayCall : Type := mkCall {
  gc_caller : Caller;
  gc_params : ChargeParams;
  gc_key : string
}.

Record World : Type := mkWorld {
  dynamo : gmap string Item;
  saved : gmap string StripeResult;
  ledger : list Movement;
  gateway_calls : list GatewayCall
}.

(** What happens to one awaited request on its way: it is handled and
    answered; the processor handles it and refuses the card (the table
    has no such answer and treats it as [Served]); it is handled but the
    answer never arrives; it never arrives. *)
Inductive Fate : Type :=
| Served
| Declined (message : string)
| AnswerLost (message : string)
| Unreachable (message : string).

(** Modelled from the spec: [checkDynamoDB] is called by [handlePayment]
    but defined nowhere in the memo; it answers whether the order's
    record says the order is paid ("if already settled, returns cached
    result with no gateway call"). *)
Definition is_paid (table : gmap string Item) (order_id : string) : bool :=
  match table !! order_id with
  | Some item =>
      match item !! "status" with
      | Some (JsStr "Paid") => true
      | _ => false
      end
  | None => false
  end.

(** Modelled from the spec: [updateDynamoDB] is called by [handlePayment]
    but defined nowhere in the memo; it "persists the outcome to
    IdempotencyStore": it sets the status of the order's record,
    creating the record when there is none, and leaves every other
    attribute and every other record alone. *)
Definition set_status (table : gmap string Item) (order_id status : string)
  : gmap string Item :=
  <[order_id := <["status" := JsStr status]> (default ∅ (table !! order_id))]> table.

Definition new_charge (w : World) (p : ChargeParams) : Charge :=
  mkCharge (length (ledger w)) (amount p) (currency p) (source p).

(** Stripe with an idempotency key, as the memo states it: a request
    whose key was seen before skips the charge and is answered with the
    first result.  [Declined] is a refusal by the processor (saved like
    any first result); [AnswerLost] and [Unreachable] are network
    failures after and before the request was handled. *)
Definition stripe (who : Caller) (f : Fate) (w : World)
    (p : ChargeParams) (o : RequestOptions) : Outcome Charge * World :=
  let key := idempotencyKey o in
  let sent := gateway_calls w ++ [mkCall who p key] in
  let replay (r : StripeResult) : Outcome Charge :=
    match r with Succeeded c => Resolved c | Failed m => Rejected m end in
  let charged :=
    mkWorld (dynamo w) (<[key := Succeeded (new_charge w p)]> (saved w))
            (ledger w ++ [mkMovement who key (new_charge w p)]) sent in
  let unchanged := mkWorld (dynamo w) (saved w) (ledger w) sent in
  match f, saved w !! key with
  | Unreachable m, _ => (Rejected m, unchanged)
  | AnswerLost m, Some _ => (Rejected m, unchanged)
  | (Served | Declined _), Some r => (replay r, unchanged)
  | Served, None => (Resolved (new_charge w p), charged)
  | AnswerLost m, None => (Rejected m, charged)
  | Declined m, None =>
      (Rejected m,
       mkWorld (dynamo w) (<[key := Failed m]> (saved w)) (ledger w) sent)
  end.

(** One awaited request, carried out under a given fate. *)
Definition perform (who : Caller) (f : Fate) (w : World) {X} (e : Effect X)
  : Outcome X * World :=
  match e in Effect X return Outcome X * World with
  | checkDynamoDB order_id =>
      match f with
      | Served | Declined _ => (Resolved (is_paid (dynamo w) order_id), w)
      | AnswerLost m | Unreachable m => (Rejected m, w)
      end
  | updateDynamoDB order_id status =>
      let written :=
        mkWorld (set_status (dynamo w) order_id status) (saved w) (ledger w)
                (gateway_calls w) in
      match f with
      | Served | Declined _ => (Resolved tt, written)
      | AnswerLost m => (Rejected m, written)
      | Unreachable m => (Rejected m, w)
      end
  | stripe_charges_create p o => stripe who f w p o
  end.

(** *** One invocation alone *)

(** Runs a body to its end, one fate per [await] ([Served] when the list
    runs out). *)
Fixpoint run {A} (who : Caller) (p : Prog A) (fates : list Fate) (w : World)
  : Outcome A * World :=
  match p with
  | Return a => (Resolved a, w)
  | Throw m => (Rejected m, w)
  | Await e k =>
      let '(r, w') := perform who (hd Served fates) w e in
      run who (k r) (tl fates) w'
  end.

(** *** Concurrent invocations *)

Record Invocation : Type := mkInvocation {
  inv_order : string;
  inv_prog : Prog Response
}.

(** The services and every Lambda invocation started so far; an
    invocation is known by its position in [pool]. *)
Record System : Type := mkSystem {
  world : World;
  pool : list Invocation
}.

Definition advance {A} (who : Caller) (f : Fate) (w : World) (p : Prog A)
  : option (Prog A * World) :=
  match p with
  | Await e k => let '(r, w') := perform who f w e in Some (k r, w')
  | _ => None
  end.

(** What can happen next: a client (re)sends a request and a new
    invocation starts; one invocation gets one awaited request carried
    out under some fate; the Lambda runtime kills an invocation where it
    stands. *)
Inductive Action : Type :=
| Invoke (event : Body)
| Deliver (i : nat) (f : Fate)
| Crash (i : nat).

Definition act (a : Action) (s : System) : System :=
  match a with
  | Invoke event =>
      mkSystem (world s)
               (pool s ++ [mkInvocation (order_id event) (handlePayment event)])
  | Deliver i f =>
      match pool s !! i with
      | Some inv =>
          match advance (mkCaller i (inv_order inv)) f (world s) (inv_prog inv) with
          | Some (p', w') =>
              mkSystem w' (<[i := mkInvocation (inv_order inv) p']> (pool s))
          | None => s
          end
      | None => s
      end
  | Crash i =>
      match pool s !! i with
      | Some inv =>
          mkSystem (world s)
                   (<[i := mkInvocation (inv_order inv) (Throw "Task timed out")]>
                      (pool s))
      | None => s
      end
  end.

(** Any interleaving of the invocations, cut at their [await]s. *)
Definition step (s s' : System) : Prop := exists a, act a s = s'.

Definition schedule (actions : list Action) (s : System) : System :=
  fold_left (fun s a => act a s) actions s.

Definition initial (table : gmap string Item) : System :=
  mkSystem (mkWorld table ∅ [] []) [].

(** Every state some interleaving can reach when Stripe starts empty. *)
Definition reachable (s : System) : Prop :=
  exists table, rtc step (initial table) s.

(** The requests an invocation for order [o] may send. *)
Definition effect_of_order (o : string) {X} (e : Effect X) : Prop :=
  match e with
  | checkDynamoDB order_id => order_id = o
  | stripe_charges_create p opts =>
      idempotencyKey opts = o /\ amount p = 1000 /\ currency p = "jpy"
  | updateDynamoDB order_id status => order_id = o /\ status = "Paid"
  end.

Fixpoint body_of_order {A} (o : string) (p : Prog A) : Prop :=
  match p with
  | Return _ | Throw _ => True
  | Await e k => effect_of_order o e /\ forall r, body_of_order o (k r)
  end.


Definition answered (f : Fate) : bool :=
  match f with
  | Served | Declined _ => true
  | AnswerLost _ | Unreachable _ => false
  end.

(** Real charges made on behalf of an order. *)
Definition charges_for (o : string) (w : World) : list Movement :=
  filter (fun mv => handling (mv_caller mv) = o) (ledger w).

(** *** Invariants *)

(** What holds of the services whatever the invocations did so far. *)
Record WorldInv (w : World) : Prop := mkWorldInv {
  call_keyed : forall c, c ∈ gateway_calls w -> gc_key c = handling (gc_caller c);
  call_amount : forall c, c ∈ gateway_calls w -> amount (gc_params c) = 1000;
  move_keyed : forall mv, mv ∈ ledger w -> mv_key mv = handling (mv_caller mv);
  move_saved : forall mv, mv ∈ ledger w ->
    saved w !! mv_key mv = Some (Succeeded (mv_charge mv));
  move_once : forall o, (length (charges_for o w) <= 1)%nat
}.

(** What holds of every state of the system. *)
Definition SystemInv (s : System) : Prop :=
  WorldInv (world s) /\
  Forall (fun inv => body_of_order (inv_order inv) (inv_prog inv)) (pool s).



End Pay.

(** ** The order store and the sweep over stuck orders *)

Module Design.

Inductive Status : Type :=
| PENDING
| CHARGING
| PAID
| FAILED_RETRYABLE
| FAILED_TERMINAL.

(** One attempted purchase, with the fields the data model lists. *)
Record Order : Type := mkOrder {
  order_id : string;
  user_id : string;
  amount : Z;
  feature_id : string;
  artifact_ref : string;
  status : Status;
  created_at : Z;
  updated_at : Z;
  expires_at : Z;
  processor_receipt : option string
}.

(** The arguments of one [createIfAbsent] call. *)
Record NewOrder : Type := mkNewOrder {
  new_order_id : string;
  new_user_id : string;
  new_amount : Z;
  new_feature_id : string;
  new_artifact_ref : string
}.

(** An operation on the store: it sees the store and leaves a store. *)
Definition Store (A : Type) : Type := gmap string Order -> A * gmap string Order.

Definition ret {A} (a : A) : Store A := fun store => (a, store).

Definition bind {A B} (m : Store A) (k : A -> Store B) : Store B :=
  fun store => let '(a, store') := m store in k a store'.

(** [get(order_id) -> Order | NotFound]. *)
Definition get (order_id : string) : Store (option Order) :=
  fun store => (store !! order_id, store).

Section IdempotencyStore.

(** The clock reading at the call and the time a record is kept. *)
Variable now : Z.
Variable ttl : Z.

Definition pending (args : NewOrder) : Order :=
  mkOrder (new_order_id args) (new_user_id args) (new_amount args)
          (new_feature_id args) (new_artifact_ref args)
          PENDING now now (now + ttl) None.

(** Modelled from the spec: [IdempotencyStore.createIfAbsent] has no
    program text in the memo; it "atomically inserts a PENDING record
    only if none exists; returns the existing record unchanged if one
    already exists (no overwrite)".  Atomic: the whole call is one
    operation on the store. *)
Definition createIfAbsent (args : NewOrder) : Store Order :=
  fun store =>
    match store !! new_order_id args with
    | Some existing => (existing, store)
    | None => (pending args, <[new_order_id args := pending args]> store)
    end.

End IdempotencyStore.

(** Concurrent [createIfAbsent] calls, in the order the store serves
    them; each call comes with its own clock reading. *)
Fixpoint serve (ttl : Z) (calls : list (Z * NewOrder)) : Store (list Order) :=
  match calls with
  | [] => ret []
  | (now, args) :: rest =>
      bind (createIfAbsent now ttl args) (fun r =>
      bind (serve ttl rest) (fun rs => ret (r :: rs)))
  end.

Section ReconciliationScanner.

Variable now : Z.
(** The abandonment threshold. *)
Variable threshold : Z.

Definition in_flight (s : Status) : bool :=
  match s with
  | PENDING | CHARGING => true
  | _ => false
  end.

Definition at_risk (r : Order) : bool :=
  in_flight (status r) && (updated_at r <? now - threshold)%Z.

(** The record of an identifier, when it is at risk. *)
Definition listed (store : gmap string Order) (order_id : string)
  : option Order :=
  match store !! order_id with
  | Some r => if at_risk r then Some r else None
  | None => None
  end.

(** Looks one identifier up and reports its record when it is at risk. *)
Definition inspect (order_id : string) (report : list Order)
  : Store (list Order) :=
  bind (get order_id) (fun found =>
    match found with
    | Some r => ret (if at_risk r then report ++ [r] else report)
    | None => ret report
    end).

Fixpoint sweep (ids : list string) (report : list Order) : Store (list Order) :=
  match ids with
  | [] => ret report
  | id :: rest => bind (inspect id report) (sweep rest)
  end.

(** Modelled from the spec: the [ReconciliationScanner] has no program
    text in the memo; it "scans the store for records with status in
    {PENDING, CHARGING} whose updated_at is older than a configurable
    abandonment threshold, and emits them as an at-risk report (never
    auto-mutates them)". *)
Definition scan : Store (list Order) :=
  fun store => sweep (elements (dom store)) [] store.

End ReconciliationScanner.

End Design.

(** ** app.py: what each submitted task holds *)

Module AppTasks.
Import Py App.

(** [res['images'][0]['url']], the expression [generate_single] returns. *)
Definition first_url (res : PyVal) : Result PyVal :=
  rbind (py_getitem_str res "images") (fun images =>
  rbind (py_getitem_0 images) (fun first =>
  py_getitem_str first "url")).

(** [event.get('one_time_token')], [event.get('model_name', 'fal-ai/flux/dev')]
    and [event.get('prompt')] for a dict event. *)
Definition token_of (d : list (string * PyVal)) : PyVal :=
  default PyNone (assoc "one_time_token" d).

Definition model_of (d : list (string * PyVal)) : PyVal :=
  default (PyStr "fal-ai/flux/dev") (assoc "model_name" d).

Definition prompt_of (d : list (string * PyVal)) : PyVal :=
  default PyNone (assoc "prompt" d).

(** [max(1, min(n, 4))] on an [int]. *)
Definition clamp (n : Z) : Z := Z.max 1 (Z.min n 4).

(** [event.get('image_count', 1)] as a number, when the event is a dict
    and what it holds there is one. *)
Definition requested_count (event : PyVal) : option Number :=
  match event with
  | PyDict d => as_number (default (PyInt 1) (assoc "image_count" d))
  | _ => None
  end.

Section Tasks.

Variable fal_client_subscribe : nat -> PyVal -> PyVal -> Result PyVal.
Variable d : list (string * PyVal).

(** What the future of task [i] holds once the task has run. *)
Definition task_outcome (i : nat) : Result PyVal :=
  rbind (fal_client_subscribe i (model_of d) (prompt_of d)) first_url.

(** The [fal_client.subscribe] call task [i] makes. *)
Definition task_call (i : nat) : Call :=
  CallSubscribe (model_of d) (prompt_of d)
                (fal_client_subscribe i (model_of d) (prompt_of d)).

End Tasks.

End AppTasks.

(** ** handlePayment: the table is written only after a charge *)

Module PayGuard.
Import Pay.

(** The processor holds a successful charge under the order's key. *)
Definition charged (w : World) (o : string) : Prop :=
  exists c, saved w !! o = Some (Succeeded c).

(** A body in which every [updateDynamoDB] is reached only under [P], or
    after a [stripe.charges.create] of the same body resolved. *)
Fixpoint guarded {A} (P : Prop) (p : Prog A) : Prop :=
  match p with
  | Return _ | Throw _ => True
  | Await e k =>
      match e in Effect X return (Outcome X -> Prog A) -> Prop with
      | checkDynamoDB _ => fun k => forall r, guarded P (k r)
      | stripe_charges_create _ _ => fun k =>
          (forall c, guarded True (k (Resolved c))) /\
          (forall m, guarded P (k (Rejected m)))
      | updateDynamoDB _ _ => fun k => P /\ forall r, guarded P (k r)
      end k
  end.

(** What holds of every state reached from a given table: a record that
    says Paid was Paid in that table or belongs to a charged order; a
    saved success has its movement in the ledger; every invocation
    writes the table only after its charge. *)
Record ChargeInv (table : gmap string Item) (s : System) : Prop := mkChargeInv {
  ci_system : SystemInv s;
  ci_paid : forall o, is_paid (dynamo (world s)) o = true ->
              is_paid table o = true \/ charged (world s) o;
  ci_moved : forall k c, saved (world s) !! k = Some (Succeeded c) ->
               exists mv, mv ∈ ledger (world s) /\ mv_key mv = k /\ mv_charge mv = c;
  ci_pool : Forall (fun inv => guarded (charged (world s) (inv_order inv))
                                       (inv_prog inv)) (pool s)
}.

End PayGuard.

(** ** The C++ launcher of the payment executable *)

Module Launcher.

(** A [std::wstring]: its UTF-16 code units. *)
Definition wstring : Type := list Z.

(** A wide literal [L"..."] of ASCII characters. *)
Definition L (s : string) : wstring :=
  map (fun c => Z.of_nat (Ascii.nat_of_ascii c)) (list_ascii_of_string s).

Definition NUL : Ascii.ascii := Ascii.zero.

Inductive HANDLE : Type :=
| hStdOutRead
| hStdOutWrite
| hProcess
| hThread.

Definition HANDLE_eqb (a b : HANDLE) : bool :=
  match a, b with
  | hStdOutRead, hStdOutRead | hStdOutWrite, hStdOutWrite
  | hProcess, hProcess | hThread, hThread => true
  | _, _ => false
  end.

(** What one [ReadFile] on the pipe does: it fails (the pipe is broken or
    in error), or it stores the bytes it got, possibly none. *)
Inductive ReadResult : Type :=
| ReadFails
| ReadGives (data : list Ascii.ascii).

(** What Windows does during one run of the launcher: whether the pipe
    and the process can be created, what the successive [ReadFile] calls
    meet (after the listed ones every further call fails: the child is
    gone and the pipe is empty), the exit code [GetExitCodeProcess]
    stores, and what the uninitialised [chBuf] happens to hold. *)
Record Windows : Type := mkWindows {
  CreatePipe_ok : bool;
  CreateProcessW_ok : bool;
  reads : list ReadResult;
  exit_code : Z;
  stack : list Ascii.ascii
}.

(** The calls the launcher makes, in order; a stream statement ending in
    [std::endl] is one line handed to the stream. *)
Inductive WinCall : Type :=
| CallCreatePipe (ok : bool)
| CallSetHandleInformation (h : HANDLE)
| CallCreateProcessW (lpCommandLine : wstring) (hStdOutput hStdError : HANDLE)
    (ok : bool)
| CallCloseHandle (h : HANDLE)
| CallReadFile (h : HANDLE) (r : ReadResult)
| CallWaitForSingleObject (h : HANDLE)
| CallGetExitCodeProcess (h : HANDLE) (code : Z)
| WcoutLine (text : wstring)
| CoutLine (text : string)
| CerrLine (text : string).

(** A computation that makes calls. *)
Definition W (A : Type) : Type := A * list WinCall.

Definition ret {A} (a : A) : W A := (a, []).

Definition bind {A B} (m : W A) (k : A -> W B) : W B :=
  let '(a, calls) := m in
  let '(b, more) := k a in
  (b, calls ++ more).

Definition call (c : WinCall) : W unit := (tt, [c]).

Notation "'let*' x ':=' m 'in' k" := (bind m (fun x => k))
  (at level 10, x name, m at level 100, k at level 200, only parsing).

Record ExeResult : Type := mkExeResult { exitCode : Z; output : string }.

(** [sizeof(chBuf)]. *)
Definition sizeof_chBuf : nat := 4096.

(** [ReadFile(hPipe, chBuf, sizeof(chBuf) - 1, &dwRead, NULL)]: the bytes
    read overwrite the start of the buffer, the rest of the buffer keeps
    what it held. *)
Definition ReadFile (r : ReadResult) (chBuf : list Ascii.ascii)
  : bool * list Ascii.ascii * nat :=
  match r with
  | ReadFails => (false, chBuf, 0%nat)
  | ReadGives data => (true, data ++ drop (length data) chBuf, length data)
  end.

(** The request [ReadFile] is made with: at most [sizeof(chBuf) - 1]
    bytes are stored. *)
Definition fits (r : ReadResult) : Prop :=
  match r with
  | ReadFails => True
  | ReadGives data => (length data <= sizeof_chBuf - 1)%nat
  end.

(** The C string a [CHAR] array holds: the bytes before the first NUL. *)
Fixpoint c_str (chBuf : list Ascii.ascii) : list Ascii.ascii :=
  match chBuf with
  | [] => []
  | c :: rest => if Ascii.eqb c NUL then [] else c :: c_str rest
  end.

(** The [while] loop of [ReadPipeToString]. *)
Fixpoint read_loop (hPipe : HANDLE) (pending : list ReadResult)
    (chBuf : list Ascii.ascii) (result : string) : W string :=
  match pending with
  | [] => let* failed := call (CallReadFile hPipe ReadFails) in ret result
  | r :: pending' =>
      let* done := call (CallReadFile hPipe r) in
      let '(ok, chBuf, dwRead) := ReadFile r chBuf in
      if ok && (0 <? dwRead)%nat then
        let chBuf := <[dwRead := NUL]> chBuf in
        read_loop hPipe pending' chBuf
                  (result ++ string_of_list_ascii (c_str chBuf))
      else ret result
  end.

(** [(int)exitCode] for a [DWORD]. *)
Definition int_of_DWORD (d : Z) : Z :=
  let m := d mod 2 ^ 32 in
  if (m <? 2 ^ 31)%Z then m else m - 2 ^ 32.

(** [L"実行中: "]. *)
Definition running_label : wstring := [23455; 34892; 20013; 58; 32].

(** The two narrow literals with Japanese text, as UTF-8. *)
Definition error_label : string := "C# EXEがエラーを返しました。Code: ".

Definition result_header : string :=
  String (Ascii.ascii_of_nat 10) "--- 解析結果 ---".

Section Run.

Variable os : Windows.

Definition ReadPipeToString (hPipe : HANDLE) : W string :=
  read_loop hPipe (reads os) (stack os) EmptyString.

Definition ExecuteProcess (cmd : wstring) : W ExeResult :=
  let result := mkExeResult (-1) EmptyString in
  let* piped := call (CallCreatePipe (CreatePipe_ok os)) in
  if negb (CreatePipe_ok os) then ret result
  else
    let* flagged := call (CallSetHandleInformation hStdOutRead) in
    let cmdBuf := cmd ++ [0] in
    let* started := call (CallCreateProcessW cmdBuf hStdOutWrite hStdOutWrite
                            (CreateProcessW_ok os)) in
    let* result :=
      if CreateProcessW_ok os then
        let* closed := call (CallCloseHandle hStdOutWrite) in
        let* output := ReadPipeToString hStdOutRead in
        let* waited := call (CallWaitForSingleObject hProcess) in
        let* coded := call (CallGetExitCodeProcess hProcess (exit_code os)) in
        let* closedProcess := call (CallCloseHandle hProcess) in
        let* closedThread := call (CallCloseHandle hThread) in
        ret (mkExeResult (int_of_DWORD (exit_code os)) output)
      else
        let* closed := call (CallCloseHandle hStdOutWrite) in
        ret result in
    let* closedRead := call (CallCloseHandle hStdOutRead) in
    ret result.

Definition GetJsonFromCSharp (exePath args : wstring) : W string :=
  let commandLine := L (String (Ascii.ascii_of_nat 34) EmptyString) ++ exePath
                     ++ L (String (Ascii.ascii_of_nat 34) " ") ++ args in
  let* shown := call (WcoutLine (running_label ++ commandLine)) in
  let* res := ExecuteProcess commandLine in
  if negb (exitCode res =? 0)%Z then
    let* reported := call (CerrLine (error_label ++ pretty (exitCode res))) in
    ret "{}"
  else ret (output res).

Definition ParseAndDisplay (jsonStr : string) : W unit :=
  if (String.length jsonStr =? 0)%nat || String.eqb jsonStr "{}" then ret tt
  else
    let* header := call (CoutLine result_header) in
    call (CoutLine jsonStr).

Definition main : W Z :=
  let exePath := L "PaymentApp.exe" in
  let args := L "tok_test_12345 fal-ai/flux/dev 4" in
  let* jsonResponse := GetJsonFromCSharp exePath args in
  let* displayed := ParseAndDisplay jsonResponse in
  ret 0.

End Run.

(** The chunks the loop takes in: the results before the first failed
    or empty read. *)
Fixpoint delivered (pending : list ReadResult) : list (list Ascii.ascii) :=
  match pending with
  | ReadGives (c :: data) :: pending' => (c :: data) :: delivered pending'
  | _ => []
  end.

(** The handles Windows holds open for the launcher, followed through a
    sequence of calls: [None] as soon as a call names a handle that is
    not open (a double close, a use after close) or replaces one that is
    still open. *)
Definition is_open (h : HANDLE) (open : list HANDLE) : bool :=
  existsb (HANDLE_eqb h) open.

Definition close (h : HANDLE) (open : list HANDLE) : list HANDLE :=
  List.filter (fun h' => negb (HANDLE_eqb h h')) open.

Definition handle_step (open : list HANDLE) (c : WinCall) : option (list HANDLE) :=
  let needs h (after : list HANDLE) :=
    if is_open h open then Some after else None in
  let opening (a b : HANDLE) :=
    if is_open a open || is_open b open then None else Some (a :: b :: open) in
  match c with
  | CallCreatePipe true => opening hStdOutRead hStdOutWrite
  | CallCreatePipe false => Some open
  | CallCreateProcessW _ out err true =>
      if is_open out open && is_open err open then opening hProcess hThread
      else None
  | CallCreateProcessW _ out err false =>
      if is_open out open && is_open err open then Some open else None
  | CallCloseHandle h => needs h (close h open)
  | CallSetHandleInformation h | CallReadFile h _
  | CallWaitForSingleObject h | CallGetExitCodeProcess h _ => needs h open
  | WcoutLine _ | CoutLine _ | CerrLine _ => Some open
  end.

Fixpoint handles_after (open : list HANDLE) (calls : list WinCall)
  : option (list HANDLE) :=
  match calls with
  | [] => Some open
  | c :: rest =>
      match handle_step open c with
      | Some open' => handles_after open' rest
      | None => None
      end
  end.

(** Whether the parent still holds the write end when it reads: true
    when no [ReadFile] in the calls comes while [hStdOutWrite] is open. *)
Fixpoint reads_with_write_end_closed (write_open : bool) (calls : list WinCall)
  : bool :=
  match calls with
  | [] => true
  | CallCreatePipe true :: rest => reads_with_write_end_closed true rest
  | CallCloseHandle hStdOutWrite :: rest => reads_with_write_end_closed false rest
  | CallReadFile _ _ :: rest =>
      negb write_open && reads_with_write_end_closed write_open rest
  | _ :: rest => reads_with_write_end_closed write_open rest
  end.

Definition cout_lines (calls : list WinCall) : list string :=
  omap (fun c => match c with CoutLine text => Some text | _ => None end) calls.

Definition cerr_lines (calls : list WinCall) : list string :=
  omap (fun c => match c with CerrLine text => Some text | _ => None end) calls.

End Launcher.

(** ** Concrete events, requests and schedules *)

Module Fixtures.
Import Py Pay.

(** What the patched [fal_client.subscribe] returns in the memo's tests. *)
Definition fake_image (url : string) : PyVal :=
  PyDict [("images", PyList [PyDict [("url", PyStr url)]])].

Definition abc : Body := mkBody "abc-123" "tok_visa" ∅.

Definition receipt : Charge := mkCharge 0 1000 "jpy" "tok_visa".

(** The failure the memo walks through: the first Lambda dies right after
    Stripe charged; the retry finds the record unpaid, sends the charge
    again under the same key and gets the first charge back. *)
Definition crash_and_retry : list Action :=
  [Invoke abc; Deliver 0 Served; Deliver 0 Served; Crash 0;
   Invoke abc; Deliver 1 Served; Deliver 1 Served; Deliver 1 Served].

(** The state the first request leaves behind. *)
Definition after_first_request : World :=
  snd (run (mkCaller 0 "abc-123") (handlePayment abc) [] (world (initial ∅))).

(** An order created for feature A at 500, not yet paid. *)
Definition o4_table : gmap string Item :=
  {[ "o4" := {[ "status" := JsStr "PENDING"; "amount" := JsNum 500;
                "feature_id" := JsStr "A" ]} ]}.




End Fixtures.

(** ** A run of the launcher *)

Module LauncherFixtures.
Import Launcher.

(** A child that writes one line in two pieces and exits with 0; the
    buffer starts out full of some other bytes. *)
Definition stub : Windows :=
  mkWindows true true
    [ReadGives (list_ascii_of_string "{'status':");
     ReadGives (list_ascii_of_string "'success'}")]
    0 (repeat (Ascii.ascii_of_nat 120) sizeof_chBuf).

End LauncherFixtures.

(** ** app.py: the tests of the memo, replayed *)

Module AppTests.
Import Py App Fixtures.


(** [test_success_multiple_images]. *)
Example test_success_multiple_images :
  let event := PyDict [("one_time_token", PyStr "tok_123");
                       ("model_name", PyStr "fal-ai/nano-banana-pro");
                       ("prompt", PyStr "cyberpunk city");
                       ("image_count", PyInt 3)] in
  lambda_handler (fun _ => Ok (PyInt 200))
                 (fun _ _ _ => Ok (fake_image "http://fake.jpg")) [] event [] =
  (Ok (response_200 [PyStr "http://fake.jpg"; PyStr "http://fake.jpg";
                     PyStr "http://fake.jpg"]),
   let answer := Ok (fake_image "http://fake.jpg") in
   let call := CallSubscribe (PyStr "fal-ai/nano-banana-pro")
                             (PyStr "cyberpunk city") answer in
   [CallPayment (PyStr "tok_123") (Ok (PyInt 200)); call; call; call]).
Proof. reflexivity. Qed.

(** [test_payment_failed]. *)
Example test_payment_failed :
  lambda_handler (fun _ => Ok (PyInt 402))
                 (fun _ _ _ => Ok (fake_image "http://fake.jpg")) []
                 (PyDict [("one_time_token", PyStr "bad_token")]) [] =
  (Ok response_402, [CallPayment (PyStr "bad_token") (Ok (PyInt 402))]).
Proof. reflexivity. Qed.

(** [test_network_exception]. *)
Example test_network_exception :
  lambda_handler (fun _ => Raise (mkExc "Exception" "Connection Timeout"))
                 (fun _ _ _ => Ok (fake_image "http://fake.jpg")) []
                 (PyDict [("one_time_token", PyStr "tok_123")]) [] =
  (Ok (PyDict [("status_code", PyInt 500);
               ("message", PyStr "Connection Timeout")]),
   [CallPayment (PyStr "tok_123")
                (Raise (mkExc "Exception" "Connection Timeout"))]).
Proof. reflexivity. Qed.

(** A fractional count between the bounds survives the clamp and is then
    refused by [range]. *)
Example fractional_image_count :
  lambda_handler (fun _ => Ok (PyInt 200))
                 (fun _ _ _ => Ok (fake_image "http://fake.jpg")) []
                 (PyDict [("image_count", PyFloat (Finite (5 # 2)))]) [] =
  (Ok (PyDict [("status_code", PyInt 500);
               ("message",
                PyStr "'float' object cannot be interpreted as an integer")]),
   [CallPayment PyNone (Ok (PyInt 200))]).
Proof. reflexivity. Qed.

(** A NaN count compares false both times and ends as one image; an
    infinite one is cut to four. *)
Example nan_image_count :
  image_count (PyDict [("image_count", PyFloat NaN)]) = Ok (PyInt 1) /\
  image_count (PyDict [("image_count", PyFloat (Infinity false))]) = Ok (PyInt 4) /\
  image_count (PyDict [("image_count", PyFloat (Infinity true))]) = Ok (PyInt 1) /\
  image_count (PyDict [("image_count", PyBool true)]) = Ok (PyInt 1) /\
  image_count (PyDict [("image_count", PyInt 7)]) = Ok (PyInt 4) /\
  image_count (PyDict [("image_count", PyInt (-2))]) = Ok (PyInt 1).
Proof. repeat split. Qed.

(** [test_argument_integrity]: the payment function is called once, with
    the token of the event. *)
Example test_argument_integrity :
  filter (fun c => negb (is_subscribe c))
    (snd (lambda_handler (fun _ => Ok (PyInt 200))
            (fun _ _ _ => Ok (fake_image "http://ok.jpg")) []
            (PyDict [("one_time_token", PyStr "STRICT_CONFIDENTIAL_TOKEN");
                     ("prompt", PyStr "test")]) [])) =
  [CallPayment (PyStr "STRICT_CONFIDENTIAL_TOKEN") (Ok (PyInt 200))].
Proof. reflexivity. Qed.

(** A count that came as text cannot be ordered against 4. *)
Example textual_image_count :
  lambda_handler (fun _ => Ok (PyInt 200))
                 (fun _ _ _ => Ok (fake_image "http://fake.jpg")) []
                 (PyDict [("image_count", PyStr "3")]) [] =
  (Ok (PyDict [("status_code", PyInt 500);
               ("message",
                PyStr "'<' not supported between instances of 'int' and 'str'")]),
   []).
Proof. reflexivity. Qed.

(** Four tasks whose threads reach [fal_client.subscribe] as task 0, 2,
    3, 1: the calls are logged in that order, the urls come back in the
    order of submission. *)
Example calls_in_thread_order :
  let fal := fun (i : nat) (_ _ : PyVal) => Ok (fake_image (pretty i)) in
  let call := fun i : nat => CallSubscribe (PyStr "fal-ai/flux/dev") PyNone
                               (Ok (fake_image (pretty i))) in
  lambda_handler (fun _ => Ok (PyInt 200)) fal [0; 1; 1; 0]%nat
                 (PyDict [("image_count", PyInt 4)]) [] =
  (Ok (response_200 [PyStr "0"; PyStr "1"; PyStr "2"; PyStr "3"]),
   [CallPayment PyNone (Ok (PyInt 200));
    call 0%nat; call 2%nat; call 3%nat; call 1%nat]).
Proof. vm_compute. reflexivity. Qed.

(** An exception outside [Exception] is not caught by the handler. *)
Example test_system_exit :
  lambda_handler (fun _ => Raise (mkExc "SystemExit" "1"))
                 (fun _ _ _ => Ok (fake_image "http://fake.jpg")) []
                 (PyDict [("one_time_token", PyStr "tok_123")]) [] =
  (Raise (mkExc "SystemExit" "1"),
   [CallPayment (PyStr "tok_123") (Raise (mkExc "SystemExit" "1"))]).
Proof. reflexivity. Qed.

End AppTests.

(** ** app.py: properties of [lambda_handler] *)

Module AppFacts.
Import Py App AppTasks.

Lemma Qltb_true x y : Qltb x y = true -> (x < y)%Q.
Proof.
  unfold Qltb. intros H. apply Qnot_le_lt. intros Hle.
  apply Qle_bool_iff in Hle. rewrite Hle in H. discriminate.
Qed.

Lemma Qltb_false x y : Qltb x y = false -> (y <= x)%Q.
Proof.
  unfold Qltb. intros H. apply Qle_bool_iff.
  destruct (Qle_bool y x); [reflexivity | discriminate].
Qed.

(** The three ways the clamp can end: cut to the upper bound, raised to
    the lower bound, or the requested value itself, which is then a
    finite number above 1 and at most 4. *)
Lemma image_count_cases d v :
  image_count (PyDict d) = Ok v ->
  let requested :=
    match assoc "image_count" d with Some x => x | None => PyInt 1 end in
  v = PyInt 4 \/ v = PyInt 1 \/
  exists q, as_number requested = Some (Finite q) /\
            (1 < q)%Q /\ (q <= 4)%Q /\ v = requested.
Proof.
  unfold image_count, py_get, py_min_int, py_max_int, py_int_lt, py_gt_int.
  cbn [rbind].
  set (requested := match assoc "image_count" d with
                    | Some x => x | None => PyInt 1 end).
  intros H. cbn zeta.
  destruct (as_number requested) as [x |] eqn:Hx; cbn [rbind] in H;
    [| discriminate].
  destruct (num_lt (of_int 4) x) eqn:H4; cbn [rbind as_number] in H.
  - left. change (num_lt (of_int 1) (Finite (inject_Z 4))) with true in H.
    congruence.
  - rewrite Hx in H. cbn [rbind] in H.
    destruct (num_lt (of_int 1) x) eqn:H1; [| right; left; congruence].
    right; right.
    destruct x as [q | [|] |]; cbn in H1, H4; try discriminate.
    exists q. apply Qltb_true in H1. apply Qltb_false in H4.
    repeat split; [exact H1 | exact H4 | congruence].
Qed.

Lemma image_count_needs_dict event v :
  image_count event = Ok v -> exists d, event = PyDict d.
Proof.
  destruct event; cbn; try discriminate. eauto.
Qed.

Lemma image_count_range event v :
  image_count event = Ok v ->
  exists q, as_number v = Some (Finite q) /\ (1 <= q)%Q /\ (q <= 4)%Q.
Proof.
  intros H. destruct (image_count_needs_dict _ _ H) as [d ->].
  destruct (image_count_cases _ _ H) as [-> | [-> | (q & Hq & H1 & H4 & ->)]].
  - exists (inject_Z 4). cbn. repeat split; discriminate.
  - exists (inject_Z 1). cbn. repeat split; discriminate.
  - exists q. repeat split; [exact Hq | apply Qlt_le_weak; exact H1 | exact H4].
Qed.

(** When [range] accepts the clamped count, it is an [int] between 1 and 4. *)
Lemma image_count_range_int event v n :
  image_count event = Ok v -> py_range v = Ok n ->
  exists c, v = PyInt c /\ 1 <= c <= 4 /\ n = Z.to_nat c.
Proof.
  intros H Hr. destruct (image_count_needs_dict _ _ H) as [d ->].
  destruct (image_count_cases _ _ H) as [-> | [-> | (q & Hq & H1 & H4 & Hv)]].
  - exists 4. cbn in Hr. split; [reflexivity | split; [lia | congruence]].
  - exists 1. cbn in Hr. split; [reflexivity | split; [lia | congruence]].
  - destruct v; cbn in Hr; try discriminate.
    + rewrite <- Hv in Hq. cbn in Hq. injection Hq as <-.
      exfalso. destruct b; revert H1; unfold Qlt; cbn; lia.
    + rewrite <- Hv in Hq. cbn in Hq. injection Hq as <-.
      exists n0. split; [reflexivity |].
      unfold Qlt, Qle in *. cbn in *. split; [lia | congruence].
Qed.

Lemma image_count_absent d :
  assoc "image_count" d = None -> image_count (PyDict d) = Ok (PyInt 1).
Proof.
  intros H. unfold image_count, py_get. rewrite H. reflexivity.
Qed.

Lemma Qltb_inject_Z a b : Qltb (inject_Z a) (inject_Z b) = (a <? b)%Z.
Proof.
  unfold Qltb, Qle_bool. cbn. rewrite !Z.mul_1_r.
  rewrite Z.ltb_antisym. reflexivity.
Qed.

Lemma image_count_int d n :
  assoc "image_count" d = Some (PyInt n) ->
  image_count (PyDict d) = Ok (PyInt (Z.max 1 (Z.min n 4))).
Proof.
  intros H. unfold image_count, py_get. rewrite H.
  unfold py_min_int, py_max_int, py_int_lt, py_gt_int.
  cbn [rbind as_number num_lt of_int].
  rewrite Qltb_inject_Z.
  destruct (4 <? n)%Z eqn:H4; cbn [rbind as_number num_lt of_int];
    rewrite Qltb_inject_Z.
  - apply Z.ltb_lt in H4. cbn. f_equal. f_equal. lia.
  - apply Z.ltb_ge in H4.
    destruct (1 <? n)%Z eqn:H1; [apply Z.ltb_lt in H1 | apply Z.ltb_ge in H1];
      cbn [rbind]; f_equal; f_equal; lia.
Qed.

(** Every submitted task runs and leaves one future, whatever it did. *)
Lemma submit_all_spec fal n : forall task model_id prompt log,
  exists futures subs,
    submit_all fal task n model_id prompt log = (Ok futures, log ++ subs) /\
    length futures = n /\
    length subs = n /\
    forallb is_subscribe subs = true.
Proof.
  induction n as [|n IH]; intros task model_id prompt log.
  - exists [], []. cbn. rewrite app_nil_r. repeat split.
  - cbn [submit_all]. unfold bind at 1. unfold capture, generate_single.
    unfold bind at 1. unfold call_subscribe at 1.
    set (answer := fal task model_id prompt).
    set (log1 := log ++ [CallSubscribe model_id prompt answer]).
    destruct (IH (S task) model_id prompt log1) as (fs & subs & Hrun & Hfs & Hsubs & Hall).
    assert (Hlog : log1 ++ subs = log ++ CallSubscribe model_id prompt answer :: subs).
    { unfold log1. rewrite <- app_assoc. reflexivity. }
    destruct answer as [res | e] eqn:Hanswer.
    + unfold lift. eexists (_ :: fs), (_ :: subs).
      unfold bind. rewrite Hrun. unfold ret. rewrite Hlog.
      split; [reflexivity |]. cbn. rewrite Hfs, Hsubs, Hall. repeat split.
    + eexists (_ :: fs), (_ :: subs).
      unfold bind. rewrite Hrun. unfold ret. rewrite Hlog.
      split; [reflexivity |]. cbn. rewrite Hfs, Hsubs, Hall. repeat split.
Qed.

Lemma results_length futures : forall urls,
  results futures = Ok urls -> length urls = length futures.
Proof.
  induction futures as [|f fs IH]; intros urls H; cbn in H.
  - injection H as <-. reflexivity.
  - destruct f as [url | e]; cbn in H; [| discriminate].
    destruct (results fs) as [urls' | e]; cbn in H; [| discriminate].
    injection H as <-. cbn. f_equal. apply IH. reflexivity.
Qed.

(** Whatever the picks, [shuffle] only reorders. *)
Lemma shuffle_Permutation {A} picks : forall l : list A, shuffle picks l ≡ₚ l.
Proof.
  induction picks as [|i picks IH]; intros l; cbn [shuffle]; [reflexivity |].
  destruct (l !! i) as [x |] eqn:Hi; [| apply IH].
  rewrite IH. symmetry. apply delete_Permutation. exact Hi.
Qed.

(** Every order of arrival is the [shuffle] of some picks. *)
Lemma shuffle_complete {A} (l' : list A) : forall l,
  l ≡ₚ l' -> exists picks, shuffle picks l = l'.
Proof.
  induction l' as [|x l' IH]; intros l Hl.
  - apply Permutation_nil_r in Hl. subst l. exists []. reflexivity.
  - assert (Hx : x ∈ l) by (rewrite Hl; left).
    apply list_elem_of_lookup in Hx as [i Hi].
    destruct (IH (delete i l)) as [picks Hpicks].
    { apply (Permutation_cons_inv (a := x)).
      rewrite <- (delete_Permutation l i x Hi). exact Hl. }
    exists (i :: picks). cbn [shuffle]. rewrite Hi, Hpicks. reflexivity.
Qed.

Lemma shuffle_length {A} picks (l : list A) : length (shuffle picks l) = length l.
Proof. apply Permutation_length, shuffle_Permutation. Qed.

Lemma shuffle_forallb {A} (P : A -> bool) picks (l : list A) :
  forallb P l = true -> forallb P (shuffle picks l) = true.
Proof.
  intros H. apply forallb_forall. intros x Hx.
  rewrite forallb_forall in H. apply H.
  eapply Permutation_in; [apply shuffle_Permutation | exact Hx].
Qed.

(** The errors the interpreter itself raises in the handler are all
    instances of [Exception]. *)
Lemma image_count_raises_Exception event e :
  image_count event = Raise e -> is_Exception e = true.
Proof.
  destruct event as [| b | n | q | s | l | d];
    try (cbn; intros [= <-]; reflexivity).
  unfold image_count, py_get, py_min_int, py_max_int, py_int_lt, py_gt_int.
  cbn [rbind].
  set (requested := match assoc "image_count" d with
                    | Some x => x | None => PyInt 1 end).
  destruct (as_number requested) as [x |] eqn:Hx; cbn [rbind].
  - destruct (num_lt (of_int 4) x); cbn [rbind as_number]; [discriminate |].
    rewrite Hx. discriminate.
  - intros [= <-]. reflexivity.
Qed.

Lemma py_range_raises_Exception v e :
  py_range v = Raise e -> is_Exception e = true.
Proof. destruct v; cbn; try discriminate; intros [= <-]; reflexivity. Qed.

Lemma py_getitem_str_raises_Exception obj key e :
  py_getitem_str obj key = Raise e -> is_Exception e = true.
Proof.
  destruct obj as [| b | n | q | s | l | d]; cbn;
    try (intros [= <-]; reflexivity).
  destruct (assoc key d); [discriminate | intros [= <-]; reflexivity].
Qed.

Lemma py_getitem_0_raises_Exception obj e :
  py_getitem_0 obj = Raise e -> is_Exception e = true.
Proof.
  destruct obj as [| b | n | q | s | l | d]; cbn;
    try (intros [= <-]; reflexivity).
  - destruct s; [intros [= <-]; reflexivity | discriminate].
  - destruct l; [intros [= <-]; reflexivity | discriminate].
Qed.

Lemma first_url_raises_Exception res e :
  first_url res = Raise e -> is_Exception e = true.
Proof.
  unfold first_url.
  destruct (py_getitem_str res "images") as [images | e1] eqn:H1; cbn [rbind].
  2:{ intros [= <-]. eapply py_getitem_str_raises_Exception, H1. }
  destruct (py_getitem_0 images) as [first | e2] eqn:H2; cbn [rbind].
  2:{ intros [= <-]. eapply py_getitem_0_raises_Exception, H2. }
  apply py_getitem_str_raises_Exception.
Qed.

(** A clamped count is never refused by [ThreadPoolExecutor]. *)
Lemma ThreadPoolExecutor_accepts event count :
  image_count event = Ok count -> ThreadPoolExecutor count = Ok tt.
Proof.
  intros H. destruct (image_count_range _ _ H) as (q & Hq & H1 & _).
  unfold ThreadPoolExecutor, py_le_int. rewrite Hq.
  cbn [rbind num_le of_int].
  replace (Qle_bool q (inject_Z 0)) with false; [reflexivity |].
  symmetry. apply not_true_is_false. intros Hle. apply Qle_bool_iff in Hle.
  assert (H10 : (1 <= inject_Z 0)%Q) by (eapply Qle_trans; eassumption).
  revert H10. unfold Qle. cbn. lia.
Qed.

(** Whether the count expression evaluates is a matter of the event
    alone: it does exactly when [image_count] is absent or a number. *)
Lemma image_count_evaluates event x :
  requested_count event = Some x -> exists count, image_count event = Ok count.
Proof.
  destruct event as [| b | n | q | s | l | d]; cbn [requested_count];
    try discriminate.
  intros Hx.
  destruct (image_count (PyDict d)) as [count | e] eqn:H; [eauto |].
  exfalso. revert H.
  unfold image_count, py_get, py_min_int, py_max_int, py_int_lt, py_gt_int.
  cbn [rbind].
  replace (match assoc "image_count" d with Some v => v | None => PyInt 1 end)
    with (default (PyInt 1) (assoc "image_count" d))
    by (destruct (assoc "image_count" d); reflexivity).
  rewrite Hx. cbn [rbind].
  destruct (num_lt (of_int 4) x); cbn [rbind as_number]; [discriminate |].
  rewrite Hx. discriminate.
Qed.

Lemma image_count_refuses event :
  requested_count event = None -> exists e, image_count event = Raise e.
Proof.
  destruct event as [| b | n | q | s | l | d]; cbn [requested_count];
    try (intros _; eexists; reflexivity).
  intros Hx.
  unfold image_count, py_get, py_min_int, py_int_lt. cbn [rbind].
  replace (match assoc "image_count" d with Some v => v | None => PyInt 1 end)
    with (default (PyInt 1) (assoc "image_count" d))
    by (destruct (assoc "image_count" d); reflexivity).
  rewrite Hx. cbn [rbind]. eexists. reflexivity.
Qed.

(** Runs the next [let*] of a handler body when it only reads the event. *)
Ltac read_event :=
  unfold bind at 1; unfold lift at 1; cbn [py_get].

Lemma token_default d :
  match assoc "one_time_token" d with Some v => v | None => PyNone end =
  default PyNone (assoc "one_time_token" d).
Proof. destruct (assoc "one_time_token" d); reflexivity. Qed.

Lemma lambda_handler_try_run pay fal sched event log :
  TryRun pay event log (lambda_handler_try pay fal sched event log).
Proof.
  unfold lambda_handler_try.
  destruct event as [| b | n | q | s | l | d];
    try (cbn; apply RaisedEarly; reflexivity).
  do 4 read_event.
  destruct (image_count (PyDict d)) as [count | e] eqn:Hcount;
    [| apply RaisedEarly; exact Hcount].
  unfold bind at 1. unfold call_payment. rewrite token_default.
  set (token := default PyNone (assoc "one_time_token" d)).
  destruct (pay token) as [paid | e] eqn:Hpay.
  2:{ eapply PaymentRaised; eauto. }
  destruct (py_ne_int paid 200) eqn:Hne.
  { unfold ret. eapply PaymentRefused; eauto. }
  unfold bind at 1. unfold lift at 1.
  set (log1 := log ++ [CallPayment token (Ok paid)]).
  assert (Hlog : forall subs, log1 ++ subs = log ++ CallPayment token (Ok paid) :: subs).
  { intros subs. unfold log1. rewrite <- app_assoc. reflexivity. }
  destruct (ThreadPoolExecutor count) as [[] | e].
  2:{ rewrite <- (app_nil_r log1), Hlog. eapply GenerationRaised; eauto. }
  unfold bind at 1. unfold lift at 1.
  destruct (py_range count) as [n | e] eqn:Hrange.
  2:{ rewrite <- (app_nil_r log1), Hlog. eapply GenerationRaised; eauto. }
  destruct (image_count_range_int _ _ _ Hcount Hrange) as (c & -> & Hc & ->).
  unfold bind at 1. unfold in_worker_threads.
  destruct (submit_all_spec fal (Z.to_nat c) 0%nat
              (match assoc "model_name" d with
               | Some v => v | None => PyStr "fal-ai/flux/dev" end)
              (match assoc "prompt" d with Some v => v | None => PyNone end)
              []) as (fs & subs & -> & Hfs & Hsubs & Hall).
  cbn [app]. rewrite Hlog. unfold bind, lift, ret.
  destruct (results fs) as [urls | e] eqn:Hres.
  - eapply Generated; eauto using shuffle_forallb.
    + rewrite shuffle_length. exact Hsubs.
    + rewrite (results_length _ _ Hres). exact Hfs.
  - eapply GenerationRaised; eauto using shuffle_forallb.
Qed.

(** The handler is the [try] block, with the instances of [Exception]
    it raises turned into the 500 answer. *)
Lemma lambda_handler_unfold pay fal sched event log :
  lambda_handler pay fal sched event log =
  match lambda_handler_try pay fal sched event log with
  | (Ok resp, log') => (Ok resp, log')
  | (Raise e, log') =>
      (if is_Exception e then Ok (response_500 e) else Raise e, log')
  end.
Proof.
  unfold lambda_handler, try_except, ret.
  destruct (lambda_handler_try pay fal sched event log) as [[resp | e] log'];
    [reflexivity |].
  destruct (is_Exception e); reflexivity.
Qed.

End AppFacts.

(** ** handlePayment: scenarios of the memo, replayed *)

Module PayTests.
Import Pay Fixtures.


(** A first request on an empty table: charged once, record set to Paid. *)
Example first_request :
  let '(r, w) := run (mkCaller 0 "abc-123") (handlePayment abc) [] (world (initial ∅)) in
  r = Resolved (mkResponse 200 (JSON_stringify receipt)) /\
  is_paid (dynamo w) "abc-123" = true /\
  ledger w = [mkMovement (mkCaller 0 "abc-123") "abc-123" receipt].
Proof. vm_compute. repeat split. Qed.


Example crash_and_retry_outcome :
  let s := schedule crash_and_retry (initial ∅) in
  ledger (world s) = [mkMovement (mkCaller 0 "abc-123") "abc-123" receipt] /\
  length (gateway_calls (world s)) = 2%nat /\
  is_paid (dynamo (world s)) "abc-123" = true /\
  inv_prog <$> pool s !! 1%nat =
    Some (Return (mkResponse 200 (JSON_stringify receipt))).
Proof. vm_compute. repeat split. Qed.


End PayTests.

(** ** handlePayment: properties *)

Module PayFacts.
Import Pay.

Lemma handlePayment_body_of_order event :
  body_of_order (order_id event) (handlePayment event).
Proof.
  unfold handlePayment. cbn. split; [reflexivity |].
  intros [[|] | m]; cbn; [exact I | | exact I].
  split; [repeat split |].
  intros [charge | m]; cbn; [| exact I].
  split; [repeat split |].
  intros [[] | m]; exact I.
Qed.

Lemma filter_none {A} (P : A -> Prop) `{forall x, Decision (P x)} (l : list A) :
  (forall x, x ∈ l -> ~ P x) -> filter P l = [].
Proof.
  induction l as [|x l IH]; intros Hl; [reflexivity |].
  rewrite filter_cons. destruct (decide (P x)) as [HP | _].
  - destruct (Hl x); [left | exact HP].
  - apply IH. intros y Hy. apply Hl. right. exact Hy.
Qed.

(** The world after a first, successful charge under a fresh key. *)
Lemma charged_inv who w p key :
  WorldInv w ->
  key = handling who -> amount p = 1000 ->
  saved w !! key = None ->
  WorldInv (mkWorld (dynamo w) (<[key := Succeeded (new_charge w p)]> (saved w))
              (ledger w ++ [mkMovement who key (new_charge w p)])
              (gateway_calls w ++ [mkCall who p key])).
Proof.
  intros [Hck Hca Hmk Hms Hmo] Hkey Hamount Hnone.
  assert (Hfresh : forall mv, mv ∈ ledger w -> mv_key mv <> key).
  { intros mv Hmv Heq. apply Hms in Hmv. rewrite Heq, Hnone in Hmv. discriminate. }
  constructor; cbn.
  - intros c [Hc | Hc%list_elem_of_singleton]%elem_of_app;
      [apply Hck; exact Hc | subst c; exact Hkey].
  - intros c [Hc | Hc%list_elem_of_singleton]%elem_of_app;
      [apply Hca; exact Hc | subst c; exact Hamount].
  - intros mv [Hmv | Hmv%list_elem_of_singleton]%elem_of_app;
      [apply Hmk; exact Hmv | subst mv; exact Hkey].
  - intros mv [Hmv | Hmv%list_elem_of_singleton]%elem_of_app.
    + rewrite lookup_insert_ne; [apply Hms; exact Hmv |].
      intros Heq. apply (Hfresh mv Hmv). symmetry. exact Heq.
    + subst mv. cbn. apply lookup_insert_eq.
  - intros o'. unfold charges_for. cbn. rewrite filter_app, length_app.
    rewrite filter_cons. cbn.
    destruct (decide (handling who = o')) as [Ho | Ho]; cbn.
    + rewrite (filter_none _ (ledger w)); [cbn; lia |].
      intros mv Hmv Hh. apply (Hfresh mv Hmv).
      rewrite (Hmk mv Hmv). congruence.
    + specialize (Hmo o'). unfold charges_for in Hmo. lia.
Qed.

Lemma stripe_inv who f w p o r w' :
  WorldInv w ->
  idempotencyKey o = handling who -> amount p = 1000 ->
  stripe who f w p o = (r, w') ->
  WorldInv w'.
Proof.
  intros Hw Hkey Hamount Hrun.
  pose proof Hw as [Hck Hca Hmk Hms Hmo].
  assert (Hsent : forall c, c ∈ gateway_calls w ++ [mkCall who p (idempotencyKey o)] ->
                    gc_key c = handling (gc_caller c) /\ amount (gc_params c) = 1000).
  { intros c [Hc | Hc%list_elem_of_singleton]%elem_of_app.
    - split; [apply Hck | apply Hca]; exact Hc.
    - subst c. split; [exact Hkey | exact Hamount]. }
  unfold stripe in Hrun.
  destruct (saved w !! idempotencyKey o) as [first |] eqn:Hsaved.
  - assert (w' = mkWorld (dynamo w) (saved w) (ledger w)
                   (gateway_calls w ++ [mkCall who p (idempotencyKey o)])) as ->.
    { destruct f; injection Hrun as _ <-; reflexivity. }
    constructor; cbn; try assumption; intros c Hc; apply Hsent; exact Hc.
  - destruct f as [| m | m | m]; injection Hrun as _ <-.
    + apply charged_inv; assumption.
    + (* refused by the processor: the refusal is saved, no money moves *)
      constructor; cbn; try assumption; try (intros c Hc; apply Hsent; exact Hc).
      intros mv Hmv. rewrite lookup_insert_ne; [apply Hms; exact Hmv |].
      intros Heq. apply Hms in Hmv. rewrite <- Heq, Hsaved in Hmv. discriminate.
    + apply charged_inv; assumption.
    + constructor; cbn; try assumption; intros c Hc; apply Hsent; exact Hc.
Qed.

Lemma perform_inv who f w {X} (e : Effect X) r w' :
  WorldInv w -> effect_of_order (handling who) e ->
  perform who f w e = (r, w') -> WorldInv w'.
Proof.
  intros Hw He Hrun. destruct e as [o | p opts | o status]; cbn in *.
  - destruct f; injection Hrun as _ <-; exact Hw.
  - destruct He as (Hkey & Hamount & _). eapply stripe_inv; eauto.
  - destruct Hw as [Hck Hca Hmk Hms Hmo].
    destruct f; injection Hrun as _ <-; try (constructor; assumption).
Qed.

(** Stripe never replaces a result it saved. *)
Lemma perform_saved who f w {X} (e : Effect X) r w' key first :
  perform who f w e = (r, w') ->
  saved w !! key = Some first -> saved w' !! key = Some first.
Proof.
  intros Hrun Hfirst. destruct e as [o | p opts | o status]; cbn in Hrun.
  - destruct f; injection Hrun as _ <-; exact Hfirst.
  - unfold stripe in Hrun.
    destruct (saved w !! idempotencyKey opts) as [x |] eqn:Hsaved.
    + destruct f; injection Hrun as _ <-; exact Hfirst.
    + assert (idempotencyKey opts <> key) by congruence.
      destruct f; injection Hrun as _ <-; cbn;
        rewrite ?lookup_insert_ne by assumption; exact Hfirst.
  - destruct f; injection Hrun as _ <-; exact Hfirst.
Qed.

Lemma advance_body who f w o (p p' : Prog Response) w' :
  body_of_order o p -> advance who f w p = Some (p', w') -> body_of_order o p'.
Proof.
  destruct p as [a | m | X e k]; cbn; try discriminate.
  intros [_ Hk]. destruct (perform who f w e) as [r w1].
  intros [= <- _]. apply Hk.
Qed.

Lemma advance_inv who f w (p p' : Prog Response) w' :
  WorldInv w -> body_of_order (handling who) p ->
  advance who f w p = Some (p', w') -> WorldInv w'.
Proof.
  destruct p as [a | m | X e k]; cbn; try discriminate.
  intros Hw [He _]. destruct (perform who f w e) as [r w1] eqn:Hrun.
  intros [= _ <-]. eapply perform_inv; eauto.
Qed.

Lemma initial_inv table : SystemInv (initial table).
Proof.
  split; [| constructor].
  constructor; cbn; try (intros x Hx; inversion Hx).
  intros o. unfold charges_for. cbn. lia.
Qed.

Lemma act_inv a s : SystemInv s -> SystemInv (act a s).
Proof.
  intros [Hw Hp]. destruct a as [event | i f | i]; cbn.
  - split; [exact Hw |]. apply Forall_app. split; [exact Hp |].
    constructor; [| constructor]. apply handlePayment_body_of_order.
  - destruct (pool s !! i) as [inv |] eqn:Hinv; [| split; assumption].
    pose proof (Forall_lookup_1 _ _ _ _ Hp Hinv) as Hbody. cbn beta in Hbody.
    destruct (advance (mkCaller i (inv_order inv)) f (world s) (inv_prog inv))
      as [[p' w'] |] eqn:Hadv; [| split; assumption].
    split; cbn.
    + eapply advance_inv; [exact Hw | | exact Hadv]. exact Hbody.
    + apply Forall_insert; [exact Hp |]. cbn. eapply advance_body; eauto.
  - destruct (pool s !! i) as [inv |] eqn:Hinv; [| split; assumption].
    split; [exact Hw |]. apply Forall_insert; [exact Hp | exact I].
Qed.

Lemma steps_inv s s' : rtc step s s' -> SystemInv s -> SystemInv s'.
Proof.
  induction 1 as [s | s1 s2 s3 [a <-] _ IH]; intros Hs; [exact Hs |].
  apply IH, act_inv, Hs.
Qed.

Lemma reachable_inv s : reachable s -> SystemInv s.
Proof.
  intros [table Hsteps]. eapply steps_inv; [exact Hsteps | apply initial_inv].
Qed.

Lemma schedule_steps actions : forall s, rtc step s (schedule actions s).
Proof.
  induction actions as [|a actions IH]; intros s; [constructor |].
  cbn. eapply rtc_l; [exists a; reflexivity | apply IH].
Qed.

(** C1: whatever the interleaving of concurrent [handlePayment]
    invocations, crashes included, at most one real charge is ever made
    for an order.  Every charge request sent for the order carries the
    order id as idempotency key, so once the processor charged, any
    re-sent request is answered with that first charge and moves no
    money. *)
Theorem one_charge_per_order s o :
  reachable s ->
  (length (charges_for o (world s)) <= 1)%nat /\
  (forall c, c ∈ gateway_calls (world s) ->
     handling (gc_caller c) = o -> gc_key c = o) /\
  (forall mv, mv ∈ charges_for o (world s) ->
     forall who p,
       stripe who Served (world s) p (mkOptions o) =
       (Resolved (mv_charge mv),
        mkWorld (dynamo (world s)) (saved (world s)) (ledger (world s))
                (gateway_calls (world s) ++ [mkCall who p o]))).
Proof.
  intros Hs. destruct (reachable_inv s Hs) as [[Hck Hca Hmk Hms Hmo] _].
  split; [apply Hmo |]. split.
  - intros c Hc <-. apply Hck. exact Hc.
  - intros mv Hmv who p. unfold charges_for in Hmv.
    apply list_elem_of_filter in Hmv as [Ho Hmv].
    pose proof (Hms mv Hmv) as Hsaved. rewrite (Hmk mv Hmv), Ho in Hsaved.
    unfold stripe. cbn. rewrite Hsaved. reflexivity.
Qed.

Lemma one_charge_per_order_witness :
  let s := schedule Fixtures.crash_and_retry (initial ∅) in
  charges_for "abc-123" (world s) =
    [mkMovement (mkCaller 0 "abc-123") "abc-123" Fixtures.receipt] /\
  ((length (charges_for "abc-123" (world s)) <= 1)%nat /\
   (forall c, c ∈ gateway_calls (world s) ->
      handling (gc_caller c) = "abc-123" -> gc_key c = "abc-123") /\
   (forall mv, mv ∈ charges_for "abc-123" (world s) ->
      forall who p,
        stripe who Served (world s) p (mkOptions "abc-123") =
        (Resolved (mv_charge mv),
         mkWorld (dynamo (world s)) (saved (world s)) (ledger (world s))
                 (gateway_calls (world s) ++ [mkCall who p "abc-123"])))).
Proof.
  cbv zeta. split; [vm_compute; reflexivity |].
  apply (one_charge_per_order
           (schedule Fixtures.crash_and_retry (initial ∅)) "abc-123").
  exists ∅. apply schedule_steps.
Defined.


Lemma stripe_dynamo who f w p o : dynamo (snd (stripe who f w p o)) = dynamo w.
Proof.
  unfold stripe. destruct f, (saved w !! idempotencyKey o); reflexivity.
Qed.


(** One invocation alone, in full: the three [await]s and what each of
    them leads to. *)
Lemma run_handlePayment who event fates w :
  let f1 := hd Served fates in
  let f2 := hd Served (tl fates) in
  let f3 := hd Served (tl (tl fates)) in
  let params := mkParams 1000 "jpy" (token event) in
  let sent := stripe who f2 w params (mkOptions (order_id event)) in
  run who (handlePayment event) fates w =
  match f1 with
  | AnswerLost m | Unreachable m => (Resolved (mkResponse 500 m), w)
  | Served | Declined _ =>
      if is_paid (dynamo w) (order_id event)
      then (Resolved (mkResponse 200 "Already Paid"), w)
      else
        match fst sent with
        | Rejected m => (Resolved (mkResponse 500 m), snd sent)
        | Resolved charge =>
            let written :=
              mkWorld (set_status (dynamo (snd sent)) (order_id event) "Paid")
                      (saved (snd sent)) (ledger (snd sent))
                      (gateway_calls (snd sent)) in
            match f3 with
            | Served | Declined _ =>
                (Resolved (mkResponse 200 (JSON_stringify charge)), written)
            | AnswerLost m => (Resolved (mkResponse 500 m), written)
            | Unreachable m => (Resolved (mkResponse 500 m), snd sent)
            end
        end
  end.
Proof.
  cbv zeta. unfold handlePayment. cbn [run try_catch bind await perform].
  destruct (hd Served fates) as [| m1 | m1 | m1]; cbn [run try_catch bind];
    try reflexivity.
  all: destruct (is_paid (dynamo w) (order_id event));
    cbn [run try_catch bind await perform]; try reflexivity.
  all: destruct (stripe who (hd Served (tl fates)) w
                   (mkParams 1000 "jpy" (token event))
                   (mkOptions (order_id event))) as [[charge | m2] w2];
    cbn [run try_catch bind await perform fst snd]; try reflexivity.
  all: destruct (hd Served (tl (tl fates))); reflexivity.
Qed.






(** *** Once Paid *)











End PayFacts.

(** ** The order store and the sweep: properties *)

Module DesignFacts.
Import Design.

Lemma serve_cons ttl now args calls store :
  serve ttl ((now, args) :: calls) store =
  let '(r, store1) := createIfAbsent now ttl args store in
  let '(rs, store2) := serve ttl calls store1 in
  (r :: rs, store2).
Proof. reflexivity. Qed.

(** Once a record exists, later [createIfAbsent] calls leave it in place
    and every one of them for that identifier returns it. *)
Lemma serve_keeps ttl calls : forall store id r,
  store !! id = Some r ->
  snd (serve ttl calls store) !! id = Some r /\
  forall j now args,
    calls !! j = Some (now, args) -> new_order_id args = id ->
    fst (serve ttl calls store) !! j = Some r.
Proof.
  induction calls as [|[now args] calls IH]; intros store id r Hr.
  - split; [exact Hr |]. intros j now args Hj. inversion Hj.
  - rewrite serve_cons. unfold createIfAbsent.
    destruct (store !! new_order_id args) as [existing |] eqn:Hlook.
    + destruct (IH store id r Hr) as [Hkeep Hret].
      destruct (serve ttl calls store) as [rs store']. cbn [fst snd] in *.
      split; [exact Hkeep |].
      intros [|j] now' args' Hj Hid; cbn in Hj |- *.
      * injection Hj as <- <-. congruence.
      * eapply Hret; eauto.
    + assert (Hne : new_order_id args <> id) by congruence.
      assert (Hr' : <[new_order_id args := pending now ttl args]> store !! id = Some r)
        by (rewrite lookup_insert_ne; assumption).
      destruct (IH _ id r Hr') as [Hkeep Hret].
      destruct (serve ttl calls (<[new_order_id args := pending now ttl args]> store))
        as [rs store']. cbn [fst snd] in *.
      split; [exact Hkeep |].
      intros [|j] now' args' Hj Hid; cbn in Hj |- *.
      * injection Hj as <- <-. contradiction.
      * eapply Hret; eauto.
Qed.

(** C5: [createIfAbsent] returns the record the store holds for the
    identifier afterwards and touches no other identifier; when a record
    existed it is returned and the store is unchanged; when none existed
    the record inserted is PENDING with the fields given; and however
    many further calls the store serves, also with other arguments, the
    record stays and each call for the identifier returns it. *)
Theorem createIfAbsent_inserts_once now ttl args store :
  let id := new_order_id args in
  let r := fst (createIfAbsent now ttl args store) in
  let store' := snd (createIfAbsent now ttl args store) in
  store' !! id = Some r /\
  (forall k, k <> id -> store' !! k = store !! k) /\
  (forall existing, store !! id = Some existing -> r = existing /\ store' = store) /\
  (store !! id = None ->
     status r = PENDING /\ order_id r = id /\ user_id r = new_user_id args /\
     amount r = new_amount args /\ feature_id r = new_feature_id args /\
     artifact_ref r = new_artifact_ref args /\ processor_receipt r = None) /\
  (forall calls,
     snd (serve ttl calls store') !! id = Some r /\
     forall j now' args',
       calls !! j = Some (now', args') -> new_order_id args' = id ->
       fst (serve ttl calls store') !! j = Some r).
Proof.
  cbv zeta. unfold createIfAbsent.
  destruct (store !! new_order_id args) as [existing |] eqn:Hlook; cbn [fst snd].
  - repeat split; try congruence.
    + apply serve_keeps. exact Hlook.
    + apply serve_keeps. exact Hlook.
  - split; [apply lookup_insert_eq |].
    split; [intros k Hk; apply lookup_insert_ne; congruence |].
    split; [discriminate |].
    split; [intros _; repeat split |].
    intros calls. apply serve_keeps. apply lookup_insert_eq.
Qed.

Lemma sweep_spec now threshold ids : forall report store,
  sweep now threshold ids report store =
  (report ++ omap (listed now threshold store) ids, store).
Proof.
  induction ids as [|id ids IH]; intros report store; cbn [sweep].
  - unfold ret. cbn. rewrite app_nil_r. reflexivity.
  - assert (Hcons : omap (listed now threshold store) (id :: ids) =
                    match listed now threshold store id with
                    | Some r => r :: omap (listed now threshold store) ids
                    | None => omap (listed now threshold store) ids
                    end) by reflexivity.
    rewrite Hcons. unfold bind at 1. unfold inspect, bind, get, ret.
    unfold listed at 1.
    destruct (store !! id) as [r |]; [| apply IH].
    rewrite IH. destruct (at_risk now threshold r); [| reflexivity].
    rewrite <- app_assoc. reflexivity.
Qed.

(** C7: a scan leaves the store as it found it and reports exactly the
    records whose status is PENDING or CHARGING and whose [updated_at]
    lies more than the threshold before the scan. *)
Theorem scan_is_read_only now threshold store :
  snd (scan now threshold store) = store /\
  forall r,
    r ∈ fst (scan now threshold store) <->
    exists id, store !! id = Some r /\
               (status r = PENDING \/ status r = CHARGING) /\
               updated_at r < now - threshold.
Proof.
  unfold scan. rewrite sweep_spec. cbn [fst snd app].
  split; [reflexivity |]. intros r.
  assert (Hrisk : at_risk now threshold r = true <->
                  (status r = PENDING \/ status r = CHARGING) /\
                  updated_at r < now - threshold).
  { unfold at_risk. rewrite andb_true_iff, Z.ltb_lt.
    destruct (status r); cbn; intuition congruence. }
  rewrite list_elem_of_omap. unfold listed. split.
  - intros (id & Hid & Hr). destruct (store !! id) as [r' |] eqn:Hlook;
      [| discriminate].
    destruct (at_risk now threshold r') eqn:Hat; [| discriminate].
    injection Hr as ->. exists id. split; [exact Hlook | apply Hrisk; exact Hat].
  - intros (id & Hlook & Hat). exists id. split.
    + apply elem_of_elements, elem_of_dom. eauto.
    + rewrite Hlook. apply Hrisk in Hat. rewrite Hat. reflexivity.
Qed.

End DesignFacts.

(** ** app.py: the calls made and the order of the answers *)

Module AppTaskFacts.
Import Py App AppTasks.

Lemma generate_single_run fal i model_id prompt log :
  generate_single fal i model_id prompt log =
  (rbind (fal i model_id prompt) first_url,
   log ++ [CallSubscribe model_id prompt (fal i model_id prompt)]).
Proof.
  unfold generate_single, bind, call_subscribe, lift.
  destruct (fal i model_id prompt); reflexivity.
Qed.

(** The futures and the calls of [n] tasks submitted from index [task] on. *)
Lemma submit_all_exact fal d n : forall task log,
  submit_all fal task n (model_of d) (prompt_of d) log =
  (Ok (map (task_outcome fal d) (seq task n)),
   log ++ map (task_call fal d) (seq task n)).
Proof.
  induction n as [|n IH]; intros task log.
  - cbn. rewrite app_nil_r. reflexivity.
  - cbn [submit_all seq map]. unfold bind at 1. unfold capture.
    rewrite generate_single_run. unfold bind at 1. rewrite IH.
    unfold ret. rewrite <- app_assoc. reflexivity.
Qed.

Lemma results_all_ok futures urls :
  results futures = Ok urls <-> futures = map Ok urls.
Proof.
  revert urls. induction futures as [|f fs IH]; intros urls; cbn.
  - split; [intros [= <-]; reflexivity |].
    destruct urls; [reflexivity | discriminate].
  - destruct f as [u | e]; cbn.
    + destruct (results fs) as [us | e] eqn:Hfs; cbn.
      * split.
        -- intros [= <-]. cbn. f_equal. apply IH. reflexivity.
        -- destruct urls as [|u' urls]; [discriminate |].
           intros [= -> Hrest]. apply IH in Hrest. congruence.
      * split; [discriminate |].
        destruct urls as [|u' urls]; [discriminate |].
        intros [= -> Hrest]. apply IH in Hrest. discriminate.
    + split; [discriminate |]. destruct urls; discriminate.
Qed.

(** [f.result()] in list order: the raise that comes out is the one of
    the first future, by position, that holds one. *)
Lemma results_first_raise futures : forall i e,
  futures !! i = Some (Raise e) ->
  (forall j, (j < i)%nat -> exists u, futures !! j = Some (Ok u)) ->
  results futures = Raise e.
Proof.
  induction futures as [|f fs IH]; intros i e Hi Hbefore; [inversion Hi |].
  destruct i as [|i]; cbn in Hi.
  - injection Hi as ->. reflexivity.
  - destruct (Hbefore 0%nat ltac:(lia)) as [u Hu]. cbn in Hu. injection Hu as ->.
    cbn. rewrite (IH i e Hi); [reflexivity |].
    intros j Hj. apply (Hbefore (S j)). lia.
Qed.

Lemma results_raise_inv futures e :
  results futures = Raise e -> In (Raise e) futures.
Proof.
  induction futures as [|f fs IH]; cbn; [discriminate |].
  destruct f as [u | e']; cbn.
  - destruct (results fs) as [us | e'']; cbn; [discriminate |].
    intros [= ->]. right. apply IH. reflexivity.
  - intros [= ->]. left. reflexivity.
Qed.

(** The [try] block once the payment is accepted: [range] takes the
    count or refuses it, and then all tasks run. *)
Lemma lambda_handler_try_accepted pay fal sched d count paid log :
  image_count (PyDict d) = Ok count ->
  pay (token_of d) = Ok paid ->
  py_ne_int paid 200 = false ->
  lambda_handler_try pay fal sched (PyDict d) log =
  match py_range count with
  | Raise e => (Raise e, log ++ [CallPayment (token_of d) (Ok paid)])
  | Ok n =>
      (rbind (results (map (task_outcome fal d) (seq 0 n)))
             (fun urls => Ok (response_200 urls)),
       log ++ CallPayment (token_of d) (Ok paid)
           :: shuffle sched (map (task_call fal d) (seq 0 n)))
  end.
Proof.
  intros Hcount Hpay Hne. unfold token_of in *.
  unfold lambda_handler_try.
  do 4 AppFacts.read_event. rewrite Hcount.
  unfold bind at 1. unfold call_payment.
  rewrite AppFacts.token_default, Hpay, Hne.
  unfold bind at 1. unfold lift at 1.
  rewrite (AppFacts.ThreadPoolExecutor_accepts _ _ Hcount).
  unfold bind at 1. unfold lift at 1.
  destruct (py_range count) as [n | e]; [| reflexivity].
  unfold bind at 1. unfold in_worker_threads.
  replace (match assoc "model_name" d with
           | Some v => v | None => PyStr "fal-ai/flux/dev" end)
    with (model_of d) by (unfold model_of; destruct (assoc "model_name" d); reflexivity).
  replace (match assoc "prompt" d with Some v => v | None => PyNone end)
    with (prompt_of d) by (unfold prompt_of; destruct (assoc "prompt" d); reflexivity).
  rewrite submit_all_exact. cbn [app]. unfold bind, lift, ret.
  rewrite <- app_assoc. cbn [app].
  destruct (results (map (task_outcome fal d) (seq 0 n))); reflexivity.
Qed.

(** The whole run once the payment is accepted and the count is an
    [int]. *)
Lemma lambda_handler_paid pay fal sched d c paid log :
  image_count (PyDict d) = Ok (PyInt c) ->
  pay (token_of d) = Ok paid ->
  py_ne_int paid 200 = false ->
  lambda_handler pay fal sched (PyDict d) log =
  (match results (map (task_outcome fal d) (seq 0 (Z.to_nat c))) with
   | Ok urls => Ok (response_200 urls)
   | Raise e => if is_Exception e then Ok (response_500 e) else Raise e
   end,
   log ++ CallPayment (token_of d) (Ok paid)
       :: shuffle sched (map (task_call fal d) (seq 0 (Z.to_nat c)))).
Proof.
  intros Hc Hp Hne.
  rewrite AppFacts.lambda_handler_unfold.
  rewrite (lambda_handler_try_accepted pay fal sched d _ paid log Hc Hp Hne).
  cbn [py_range].
  destruct (results (map (task_outcome fal d) (seq 0 (Z.to_nat c)))); reflexivity.
Qed.

(** Where an exception that leaves the [try] block can come from: the
    interpreter raises instances of [Exception] only, so any other was
    raised by one of the two collaborators. *)
Lemma lambda_handler_try_raise pay fal sched event log e log' :
  lambda_handler_try pay fal sched event log = (Raise e, log') ->
  is_Exception e = true \/
  (exists token, pay token = Raise e) \/
  (exists i model_id prompt, fal i model_id prompt = Raise e).
Proof.
  intros Hrun.
  pose proof (AppFacts.lambda_handler_try_run pay fal sched event log) as Htry.
  rewrite Hrun in Htry.
  inversion Htry as [e' Hearly He | d count e' Hd Hc Hp He
                    | d count paid Hd Hc Hp Hne He
                    | d count paid subs e' Hd Hc Hp Hne Hall He
                    | d count paid subs c urls Hd Hc Hp Hne Hall Hcount Hr Hsubs Hurls He].
  - left. eapply AppFacts.image_count_raises_Exception, Hearly.
  - right; left. eauto.
  - subst event.
    rewrite (lambda_handler_try_accepted pay fal sched d count paid log Hc Hp Hne)
      in Hrun.
    destruct (py_range count) as [n | e''] eqn:Hrange.
    + destruct (results (map (task_outcome fal d) (seq 0 n))) as [us | e'']
        eqn:Hres; cbn [rbind] in Hrun; [discriminate |].
      injection Hrun as -> _.
      apply results_raise_inv in Hres. apply in_map_iff in Hres as (i & Hi & _).
      unfold task_outcome in Hi.
      destruct (fal i (model_of d) (prompt_of d)) as [res | e''] eqn:Hfal;
        cbn [rbind] in Hi.
      * left. eapply AppFacts.first_url_raises_Exception, Hi.
      * right; right. injection Hi as ->. eauto.
    + injection Hrun as -> _. left.
      eapply AppFacts.py_range_raises_Exception, Hrange.
Qed.

(** X1: an event that is not a dict, or whose [image_count] cannot be
    ordered against an [int], is answered 500 with that error's text
    before any collaborator is called: the log is left as it was. *)
Theorem unusable_event_calls_nobody pay fal sched event log e :
  image_count event = Raise e ->
  lambda_handler pay fal sched event log = (Ok (response_500 e), log).
Proof.
  intros Hraise. rewrite AppFacts.lambda_handler_unfold.
  pose proof (AppFacts.lambda_handler_try_run pay fal sched event log) as Htry.
  destruct (lambda_handler_try pay fal sched event log) as [r log'].
  inversion Htry; subst; try congruence.
  assert (e0 = e) as -> by congruence.
  rewrite (AppFacts.image_count_raises_Exception _ _ Hraise). reflexivity.
Qed.

Lemma unusable_event_calls_nobody_witness :
  let pay := fun _ : PyVal => Ok (PyInt 200) in
  let fal := fun (_ : nat) (_ _ : PyVal) => Ok (Fixtures.fake_image "http://fake.jpg") in
  let e := TypeError "'<' not supported between instances of 'int' and 'NoneType'" in
  image_count (PyDict [("image_count", PyNone)]) = Raise e /\
  lambda_handler pay fal [] (PyDict [("image_count", PyNone)]) [] =
    (Ok (response_500 e), []).
Proof.
  cbv zeta. split; [reflexivity |].
  apply (unusable_event_calls_nobody
           (fun _ => Ok (PyInt 200))
           (fun _ _ _ => Ok (Fixtures.fake_image "http://fake.jpg")) []
           (PyDict [("image_count", PyNone)]) []).
  reflexivity.
Defined.

(** X2: [payment.request] is called at most once per event, with
    [event.get('one_time_token')], and before every
    [fal_client.subscribe] call: what a run adds to the log is nothing,
    or that one payment call followed by subscribe calls only. *)
Theorem payment_is_called_once_and_first pay fal sched event log :
  exists added,
    snd (lambda_handler pay fal sched event log) = log ++ added /\
    (added = [] \/
     exists d subs,
       event = PyDict d /\
       added = CallPayment (token_of d) (pay (token_of d)) :: subs /\
       forallb is_subscribe subs = true).
Proof.
  rewrite AppFacts.lambda_handler_unfold.
  pose proof (AppFacts.lambda_handler_try_run pay fal sched event log) as Htry.
  destruct (lambda_handler_try pay fal sched event log) as [r log'].
  unfold token_of.
  inversion Htry as [e Hearly He | d count e Hd Hc Hp He
                    | d count paid Hd Hc Hp Hne He
                    | d count paid subs e Hd Hc Hp Hne Hall He
                    | d count paid subs c urls Hd Hc Hp Hne Hall Hcount Hr Hsubs Hurls He];
    subst; cbn [snd].
  - exists []. rewrite app_nil_r. split; [reflexivity | left; reflexivity].
  - eexists. split; [reflexivity |]. right. exists d, [].
    rewrite Hp. repeat split.
  - eexists. split; [reflexivity |]. right. exists d, [].
    rewrite Hp. repeat split.
  - eexists. split; [reflexivity |]. right. exists d, subs.
    rewrite Hp. repeat split. exact Hall.
  - eexists. split; [reflexivity |]. right. exists d, subs.
    rewrite Hp. repeat split. exact Hall.
Qed.

(** X3: once the payment is accepted, every one of the [count] tasks
    calls [fal_client.subscribe] exactly once, with the event's
    [model_name] ('fal-ai/flux/dev' when absent) and [prompt], also when
    an earlier task raised: the log gains the payment call and then the
    [count] subscribe calls of the tasks, in whatever order the worker
    threads made them. *)
Theorem every_task_calls_subscribe pay fal sched d c paid log :
  image_count (PyDict d) = Ok (PyInt c) ->
  pay (token_of d) = Ok paid ->
  py_ne_int paid 200 = false ->
  exists subs,
    snd (lambda_handler pay fal sched (PyDict d) log) =
      log ++ CallPayment (token_of d) (Ok paid) :: subs /\
    subs ≡ₚ map (task_call fal d) (seq 0 (Z.to_nat c)) /\
    Z.of_nat (length subs) = c.
Proof.
  intros Hc Hp Hne.
  rewrite (lambda_handler_paid pay fal sched d c paid log Hc Hp Hne). cbn [snd].
  eexists. split; [reflexivity |].
  split; [apply AppFacts.shuffle_Permutation |].
  destruct (AppFacts.image_count_range_int _ (PyInt c) (Z.to_nat c) Hc eq_refl)
    as (c' & [= <-] & Hr & _).
  rewrite AppFacts.shuffle_length, length_map, length_seq. lia.
Qed.

Lemma every_task_calls_subscribe_witness :
  let d := [("one_time_token", PyStr "tok_123"); ("prompt", PyStr "cat");
            ("image_count", PyInt 2)] in
  let pay := fun _ : PyVal => Ok (PyInt 200) in
  let fal := fun (i : nat) (_ _ : PyVal) =>
               match i with
               | O => Raise (mkExc "Exception" "fal is down")
               | _ => Ok (Fixtures.fake_image "http://fake.jpg")
               end in
  lambda_handler pay fal [1%nat] (PyDict d) [] =
    (Ok (response_500 (mkExc "Exception" "fal is down")),
     [CallPayment (PyStr "tok_123") (Ok (PyInt 200)); task_call fal d 1; task_call fal d 0]) /\
  exists subs,
    snd (lambda_handler pay fal [1%nat] (PyDict d) []) =
      [] ++ CallPayment (token_of d) (Ok (PyInt 200)) :: subs /\
    subs ≡ₚ map (task_call fal d) (seq 0 (Z.to_nat 2)) /\
    Z.of_nat (length subs) = 2.
Proof.
  cbv zeta. split; [reflexivity |].
  apply (every_task_calls_subscribe
           (fun _ => Ok (PyInt 200))
           (fun i _ _ => match i with
                         | O => Raise (mkExc "Exception" "fal is down")
                         | _ => Ok (Fixtures.fake_image "http://fake.jpg")
                         end)
           [1%nat]
           [("one_time_token", PyStr "tok_123"); ("prompt", PyStr "cat");
            ("image_count", PyInt 2)]
           2 (PyInt 200) []); reflexivity.
Defined.

(** X4: in an answer with [status_code] 200 the [image_urls] follow the
    order in which the tasks were submitted, not the order in which they
    finished: the i-th url is [res['images'][0]['url']] of what
    [fal_client.subscribe] answered to task i. *)
Theorem image_urls_follow_task_order pay fal sched event log resp log' :
  lambda_handler pay fal sched event log = (Ok resp, log') ->
  status_code resp = Some (PyInt 200) ->
  exists d urls,
    event = PyDict d /\
    image_urls resp = Some (PyList urls) /\
    map (task_outcome fal d) (seq 0 (length urls)) = map Ok urls.
Proof.
  intros Hrun Hstatus.
  pose proof Hrun as Hrun'. rewrite AppFacts.lambda_handler_unfold in Hrun'.
  pose proof (AppFacts.lambda_handler_try_run pay fal sched event log) as Htry.
  destruct (lambda_handler_try pay fal sched event log) as [[resp' | e] log''].
  2:{ destruct (is_Exception e); [| discriminate].
      injection Hrun' as <- _. cbn in Hstatus. discriminate. }
  injection Hrun' as -> ->.
  inversion Htry as [e Hearly He | d count e Hd Hc Hp He
                    | d count paid Hd Hc Hp Hne He
                    | d count paid subs e Hd Hc Hp Hne Hall He
                    | d count paid subs c urls Hd Hc Hp Hne Hall Hcount Hr Hsubs Hurls He];
    subst; try (cbn in Hstatus; discriminate).
  rewrite (lambda_handler_paid pay fal sched d c paid log Hc Hp Hne) in Hrun.
  destruct (results (map (task_outcome fal d) (seq 0 (Z.to_nat c))))
    as [urls' | e] eqn:Hres.
  - injection Hrun as Hresp _.
    exists d, urls'. split; [reflexivity |].
    assert (urls' = urls) as -> by (cbn in Hresp; congruence).
    split; [reflexivity |].
    rewrite Hurls. apply results_all_ok. exact Hres.
  - destruct (is_Exception e); injection Hrun as Hresp _; discriminate.
Qed.

Lemma image_urls_follow_task_order_witness :
  let event := PyDict [("image_count", PyInt 2)] in
  let pay := fun _ : PyVal => Ok (PyInt 200) in
  let fal := fun (i : nat) (_ _ : PyVal) =>
               Ok (Fixtures.fake_image (match i with O => "http://a.jpg" | _ => "http://b.jpg" end)) in
  let urls := [PyStr "http://a.jpg"; PyStr "http://b.jpg"] in
  image_urls (response_200 urls) = Some (PyList urls) /\
  exists d urls',
    event = PyDict d /\
    image_urls (response_200 urls) = Some (PyList urls') /\
    map (task_outcome fal d) (seq 0 (length urls')) = map Ok urls'.
Proof.
  cbv zeta. split; [reflexivity |].
  apply (image_urls_follow_task_order
           (fun _ => Ok (PyInt 200))
           (fun i _ _ => Ok (Fixtures.fake_image
                               (match i with O => "http://a.jpg" | _ => "http://b.jpg" end)))
           [1%nat]
           (PyDict [("image_count", PyInt 2)]) []
           (response_200 [PyStr "http://a.jpg"; PyStr "http://b.jpg"])
           [CallPayment PyNone (Ok (PyInt 200));
            CallSubscribe (PyStr "fal-ai/flux/dev") PyNone (Ok (Fixtures.fake_image "http://b.jpg"));
            CallSubscribe (PyStr "fal-ai/flux/dev") PyNone (Ok (Fixtures.fake_image "http://a.jpg"))]);
    reflexivity.
Defined.

(** X5: when tasks fail, the error that comes out is the one of the
    failing task that was submitted first, whatever the other tasks did:
    an exception raised by [fal_client.subscribe], or an answer without
    [images[0].url].  An instance of [Exception] comes out as the
    [message] of the 500 answer; any other exception is not caught and
    comes out as it is. *)
Theorem first_failing_task_is_reported pay fal sched d c paid log i e :
  image_count (PyDict d) = Ok (PyInt c) ->
  pay (token_of d) = Ok paid ->
  py_ne_int paid 200 = false ->
  (i < Z.to_nat c)%nat ->
  task_outcome fal d i = Raise e ->
  (forall j, (j < i)%nat -> exists u, task_outcome fal d j = Ok u) ->
  fst (lambda_handler pay fal sched (PyDict d) log) =
    if is_Exception e then Ok (response_500 e) else Raise e.
Proof.
  intros Hc Hp Hne Hi Hfail Hbefore.
  rewrite (lambda_handler_paid pay fal sched d c paid log Hc Hp Hne). cbn [fst].
  rewrite (results_first_raise _ i e); [reflexivity | |].
  - rewrite list_lookup_fmap, lookup_seq_lt by exact Hi. cbn. rewrite Hfail. reflexivity.
  - intros j Hj. destruct (Hbefore j Hj) as [u Hu]. exists u.
    rewrite list_lookup_fmap, lookup_seq_lt by lia. cbn. rewrite Hu. reflexivity.
Qed.

Lemma first_failing_task_is_reported_witness :
  let d := [("image_count", PyInt 3)] in
  let pay := fun _ : PyVal => Ok (PyInt 200) in
  let fal := fun (i : nat) (_ _ : PyVal) =>
               match i with
               | O => Ok (Fixtures.fake_image "http://a.jpg")
               | 1%nat => Ok (PyDict [("images", PyList [])])
               | _ => Raise (mkExc "Exception" "fal is down")
               end in
  task_outcome fal d 1 = Raise (IndexError "list index out of range") /\
  fst (lambda_handler pay fal [2%nat] (PyDict d) []) =
    Ok (response_500 (IndexError "list index out of range")).
Proof.
  cbv zeta. split; [reflexivity |].
  apply (first_failing_task_is_reported
           (fun _ => Ok (PyInt 200))
           (fun i _ _ => match i with
                         | O => Ok (Fixtures.fake_image "http://a.jpg")
                         | 1%nat => Ok (PyDict [("images", PyList [])])
                         | _ => Raise (mkExc "Exception" "fal is down")
                         end)
           [2%nat]
           [("image_count", PyInt 3)] 3 (PyInt 200) [] 1%nat
           (IndexError "list index out of range")).
  - reflexivity.
  - reflexivity.
  - reflexivity.
  - cbn. lia.
  - reflexivity.
  - intros [|j] Hj; [| lia]. eexists. reflexivity.
Defined.

(** X16: no image is generated without an accepted payment: whenever a
    run made a [fal_client.subscribe] call, [payment.request] had been
    called for the event's token before and had answered a value equal
    to 200 (it neither raised nor answered anything else). *)
Theorem subscribe_only_after_accepted_payment
    pay fal sched event result log' model_id prompt answer :
  lambda_handler pay fal sched event [] = (result, log') ->
  In (CallSubscribe model_id prompt answer) log' ->
  exists d paid rest,
    event = PyDict d /\
    pay (token_of d) = Ok paid /\
    py_ne_int paid 200 = false /\
    log' = CallPayment (token_of d) (Ok paid) :: rest.
Proof.
  intros Hrun Hin. rewrite AppFacts.lambda_handler_unfold in Hrun.
  pose proof (AppFacts.lambda_handler_try_run pay fal sched event []) as Htry.
  unfold token_of.
  inversion Htry as [e Hearly He | d count e Hd Hc Hp He
                    | d count paid Hd Hc Hp Hne He
                    | d count paid subs e Hd Hc Hp Hne Hall He
                    | d count paid subs c urls Hd Hc Hp Hne Hall Hcount Hr Hsubs Hurls He];
    rewrite <- He in Hrun; injection Hrun as _ <-; cbn [app] in Hin.
  - destruct Hin.
  - destruct Hin as [Heq | []]. discriminate Heq.
  - destruct Hin as [Heq | []]. discriminate Heq.
  - exists d, paid, subs. repeat split; assumption.
  - exists d, paid, subs. repeat split; assumption.
Qed.

Lemma subscribe_only_after_accepted_payment_witness :
  let event := PyDict [("one_time_token", PyStr "tok_123")] in
  let pay := fun _ : PyVal => Ok (PyFloat (Finite (200 # 1))) in
  let fal := fun (_ : nat) (_ _ : PyVal) => Ok (Fixtures.fake_image "http://fake.jpg") in
  let call := CallSubscribe (PyStr "fal-ai/flux/dev") PyNone
                (Ok (Fixtures.fake_image "http://fake.jpg")) in
  let log' := [CallPayment (PyStr "tok_123") (Ok (PyFloat (Finite (200 # 1)))); call] in
  lambda_handler pay fal [] event [] =
    (Ok (response_200 [PyStr "http://fake.jpg"]), log') /\
  exists d paid rest,
    event = PyDict d /\
    pay (token_of d) = Ok paid /\
    py_ne_int paid 200 = false /\
    log' = CallPayment (token_of d) (Ok paid) :: rest.
Proof.
  cbv zeta. split; [reflexivity |].
  apply (subscribe_only_after_accepted_payment
           (fun _ => Ok (PyFloat (Finite (200 # 1))))
           (fun _ _ _ => Ok (Fixtures.fake_image "http://fake.jpg")) []
           (PyDict [("one_time_token", PyStr "tok_123")])
           (Ok (response_200 [PyStr "http://fake.jpg"]))
           [CallPayment (PyStr "tok_123") (Ok (PyFloat (Finite (200 # 1))));
            CallSubscribe (PyStr "fal-ai/flux/dev") PyNone
              (Ok (Fixtures.fake_image "http://fake.jpg"))]
           (PyStr "fal-ai/flux/dev") PyNone
           (Ok (Fixtures.fake_image "http://fake.jpg"))).
  - reflexivity.
  - right. left. reflexivity.
Defined.

End AppTaskFacts.

(** ** app.py: the answer of [lambda_handler] *)

Module AppAnswerFacts.
Import Py App AppTasks.

(** What lies behind an answer with the 200 dict. *)
Lemma answer_200_inv pay fal sched event log urls :
  fst (lambda_handler pay fal sched event log) = Ok (response_200 urls) ->
  exists d c paid,
    event = PyDict d /\
    image_count event = Ok (PyInt c) /\ 1 <= c <= 4 /\
    length urls = Z.to_nat c /\
    pay (token_of d) = Ok paid /\ py_ne_int paid 200 = false /\
    results (map (task_outcome fal d) (seq 0 (Z.to_nat c))) = Ok urls.
Proof.
  intros Hfst.
  pose proof Hfst as Hfst'. rewrite AppFacts.lambda_handler_unfold in Hfst'.
  pose proof (AppFacts.lambda_handler_try_run pay fal sched event log) as Htry.
  destruct (lambda_handler_try pay fal sched event log) as [[resp | e] log'];
    cbn [fst] in Hfst'.
  2:{ destruct (is_Exception e); discriminate. }
  injection Hfst' as ->.
  inversion Htry as [e Hearly He | d count e Hd Hc Hp He
                    | d count paid Hd Hc Hp Hne He
                    | d count paid subs e Hd Hc Hp Hne Hall He
                    | d count paid subs c urls' Hd Hc Hp Hne Hall Hcount Hr Hsubs Hurls He].
  subst event count urls'.
  exists d, c, paid. repeat split; try assumption; try lia.
  rewrite (AppTaskFacts.lambda_handler_paid pay fal sched d c paid log Hc Hp Hne)
    in Hfst.
  cbn [fst] in Hfst.
  destruct (results (map (task_outcome fal d) (seq 0 (Z.to_nat c)))) as [us | e].
  - injection Hfst as ->. reflexivity.
  - destruct (is_Exception e); discriminate.
Qed.

(** The handler has one answer with [status_code] 200. *)
Lemma status_200_inv pay fal sched event log resp :
  fst (lambda_handler pay fal sched event log) = Ok resp ->
  status_code resp = Some (PyInt 200) ->
  exists urls, resp = response_200 urls.
Proof.
  intros Hfst Hstatus.
  rewrite AppFacts.lambda_handler_unfold in Hfst.
  pose proof (AppFacts.lambda_handler_try_run pay fal sched event log) as Htry.
  destruct (lambda_handler_try pay fal sched event log) as [[resp' | e] log'];
    cbn [fst] in Hfst.
  2:{ destruct (is_Exception e); [| discriminate].
      injection Hfst as <-. cbn in Hstatus. discriminate. }
  injection Hfst as ->.
  inversion Htry; subst; [cbn in Hstatus; discriminate | eauto].
Qed.

(** C8: the image count is [max(1, min(event.get('image_count', 1), 4))],
    and what that gives depends on the event.  When the event is no
    dict, or its [image_count] is no number, the expression raises and
    the handler answers 500 without calling anyone.  Otherwise it gives
    a number between 1 and 4: 1 when [image_count] is absent,
    [max(1, min(n, 4))] for an [int] n.  The handler then answers 200
    with [urls] exactly when that count is the [int] [len(urls)], the
    payment was accepted and the tasks returned these urls; and an
    answer with [status_code] 200 is always of that form. *)
Theorem lambda_handler_image_count pay fal sched event log :
  (requested_count event = None /\
   exists e,
     image_count event = Raise e /\
     lambda_handler pay fal sched event log = (Ok (response_500 e), log)) \/
  (exists d count q,
     event = PyDict d /\
     image_count event = Ok count /\
     as_number count = Some (Finite q) /\ (1 <= q)%Q /\ (q <= 4)%Q /\
     (assoc "image_count" d = None -> count = PyInt 1) /\
     (forall n, assoc "image_count" d = Some (PyInt n) ->
                count = PyInt (clamp n)) /\
     (forall urls,
        fst (lambda_handler pay fal sched event log) = Ok (response_200 urls) <->
        count = PyInt (Z.of_nat (length urls)) /\
        (exists paid, pay (token_of d) = Ok paid /\ py_ne_int paid 200 = false) /\
        map (task_outcome fal d) (seq 0 (length urls)) = map Ok urls) /\
     (forall resp,
        fst (lambda_handler pay fal sched event log) = Ok resp ->
        status_code resp = Some (PyInt 200) ->
        exists urls, resp = response_200 urls /\
                     image_urls resp = Some (PyList urls))).
Proof.
  destruct (requested_count event) as [x |] eqn:Hreq.
  - right.
    destruct (AppFacts.image_count_evaluates _ _ Hreq) as [count Hc].
    destruct (AppFacts.image_count_needs_dict _ _ Hc) as [d ->].
    destruct (AppFacts.image_count_range _ _ Hc) as (q & Hq & H1 & H4).
    exists d, count, q.
    split; [reflexivity |]. split; [exact Hc |]. split; [exact Hq |].
    split; [exact H1 |]. split; [exact H4 |].
    split; [| split; [| split]].
    + intros Ha. rewrite (AppFacts.image_count_absent _ Ha) in Hc. congruence.
    + intros n Hn. rewrite (AppFacts.image_count_int _ _ Hn) in Hc.
      unfold clamp. congruence.
    + intros urls. split.
      * intros Hfst.
        destruct (answer_200_inv _ _ _ _ _ _ Hfst)
          as (d' & c & paid & [= <-] & Hc' & Hr & Hlen & Hp & Hne & Hres).
        assert (count = PyInt c) as -> by congruence.
        split; [f_equal; lia |]. split; [eauto |].
        rewrite Hlen. apply AppTaskFacts.results_all_ok. exact Hres.
      * intros (-> & (paid & Hp & Hne) & Hmap).
        rewrite (AppTaskFacts.lambda_handler_paid pay fal sched d _ paid log Hc Hp Hne).
        cbn [fst]. rewrite Nat2Z.id.
        apply AppTaskFacts.results_all_ok in Hmap. rewrite Hmap. reflexivity.
    + intros resp Hfst Hstatus.
      destruct (status_200_inv _ _ _ _ _ _ Hfst Hstatus) as [urls ->].
      exists urls. split; reflexivity.
  - left. split; [reflexivity |].
    destruct (AppFacts.image_count_refuses _ Hreq) as [e He].
    exists e. split; [exact He |].
    rewrite AppFacts.lambda_handler_unfold.
    pose proof (AppFacts.lambda_handler_try_run pay fal sched event log) as Htry.
    destruct (lambda_handler_try pay fal sched event log) as [r log'].
    inversion Htry; subst; try congruence.
    assert (e0 = e) as -> by congruence.
    rewrite (AppFacts.image_count_raises_Exception _ _ He). reflexivity.
Qed.

(** With [image_count] 7 the count is 4: accepted payment and four
    returned urls give the 200 answer with those four urls. *)
Lemma lambda_handler_image_count_witness :
  let event := PyDict [("one_time_token", PyStr "tok_123");
                       ("prompt", PyStr "cyberpunk city");
                       ("image_count", PyInt 7)] in
  let pay := fun _ : PyVal => Ok (PyInt 200) in
  let fal := fun (i : nat) (_ _ : PyVal) => Ok (Fixtures.fake_image (pretty i)) in
  image_count event = Ok (PyInt 4) /\
  fst (lambda_handler pay fal [3; 0]%nat event []) =
    Ok (response_200 [PyStr "0"; PyStr "1"; PyStr "2"; PyStr "3"]).
Proof.
  cbv zeta. split; [reflexivity |].
  destruct (lambda_handler_image_count
              (fun _ => Ok (PyInt 200))
              (fun i _ _ => Ok (Fixtures.fake_image (pretty i)))
              [3; 0]%nat
              (PyDict [("one_time_token", PyStr "tok_123");
                       ("prompt", PyStr "cyberpunk city");
                       ("image_count", PyInt 7)]) [])
    as [[Hnone _] | (d & count & q & Hd & Hc & _ & _ & _ & _ & Hint & H200 & _)].
  - discriminate Hnone.
  - injection Hd as <-.
    apply H200. split; [apply (Hint 7); reflexivity |].
    split; [exists (PyInt 200); split; reflexivity | reflexivity].
Defined.

(** An [image_count] that came as text is not clamped: the comparison
    with 4 raises, and the answer is 500. *)
Lemma image_count_as_text_is_refused :
  let event := PyDict [("one_time_token", PyStr "tok_123");
                       ("image_count", PyStr "3")] in
  let e := TypeError "'<' not supported between instances of 'int' and 'str'" in
  image_count event = Raise e /\
  lambda_handler (fun _ => Ok (PyInt 200))
                 (fun _ _ _ => Ok (Fixtures.fake_image "http://fake.jpg")) []
                 event [] =
    (Ok (response_500 e), []).
Proof. cbv zeta. split; reflexivity. Qed.

(** C9: when [payment.request], asked about the event's token, answers
    anything other than 200, the handler answers
    [{'status_code': 402, 'image_urls': []}], and that payment call is
    the only call it makes: [fal_client.subscribe] is never called.  (The
    handler asks [payment.request] once the image count is there.) *)
Theorem lambda_handler_payment_refused pay fal sched d count paid log :
  image_count (PyDict d) = Ok count ->
  pay (token_of d) = Ok paid ->
  py_ne_int paid 200 = true ->
  lambda_handler pay fal sched (PyDict d) log =
    (Ok response_402, log ++ [CallPayment (token_of d) (Ok paid)]) /\
  status_code response_402 = Some (PyInt 402) /\
  image_urls response_402 = Some (PyList []) /\
  filter is_subscribe [CallPayment (token_of d) (Ok paid)] = [].
Proof.
  intros Hc Hp Hne. split; [| repeat split].
  rewrite AppFacts.lambda_handler_unfold.
  unfold token_of in *. unfold lambda_handler_try.
  do 4 AppFacts.read_event. rewrite Hc.
  unfold bind at 1. unfold call_payment.
  rewrite AppFacts.token_default, Hp, Hne. reflexivity.
Qed.

Lemma lambda_handler_payment_refused_witness :
  let d := [("one_time_token", PyStr "bad_token"); ("image_count", PyInt 3)] in
  let pay := fun token : PyVal =>
               match token with
               | PyStr "bad_token" => Ok (PyInt 402)
               | _ => Ok (PyInt 200)
               end in
  let fal := fun (_ : nat) (_ _ : PyVal) => Ok (Fixtures.fake_image "http://fake.jpg") in
  lambda_handler pay fal [] (PyDict d) [] =
    (Ok response_402, [] ++ [CallPayment (token_of d) (Ok (PyInt 402))]) /\
  status_code response_402 = Some (PyInt 402) /\
  image_urls response_402 = Some (PyList []) /\
  filter is_subscribe [CallPayment (token_of d) (Ok (PyInt 402))] = [].
Proof.
  cbv zeta.
  apply (lambda_handler_payment_refused
           (fun token => match token with
                         | PyStr "bad_token" => Ok (PyInt 402)
                         | _ => Ok (PyInt 200)
                         end)
           (fun _ _ _ => Ok (Fixtures.fake_image "http://fake.jpg")) []
           [("one_time_token", PyStr "bad_token"); ("image_count", PyInt 3)]
           (PyInt 3) (PyInt 402) []); reflexivity.
Defined.

(** C10: what comes out of [lambda_handler] is a dict with [status_code]
    200 or 402 when the [try] block returned it, the 500 dict whose
    [message] is [str(e)] when the block raised an instance [e] of
    [Exception], and otherwise an exception [e] that is no instance of
    [Exception], raised by [payment.request] or [fal_client.subscribe]
    and not caught.  So the handler always answers with a dict when the
    two collaborators raise instances of [Exception] only; and what
    [payment.request] raises is caught or goes through by its class. *)
Theorem lambda_handler_answers_or_propagates pay fal sched event log :
  exists result log',
    lambda_handler pay fal sched event log = (result, log') /\
    ((exists resp,
        result = Ok resp /\
        (status_code resp = Some (PyInt 200) /\
           lambda_handler_try pay fal sched event log = (Ok resp, log') \/
         status_code resp = Some (PyInt 402) /\
           lambda_handler_try pay fal sched event log = (Ok resp, log') \/
         status_code resp = Some (PyInt 500) /\
           exists e,
             lambda_handler_try pay fal sched event log = (Raise e, log') /\
             is_Exception e = true /\
             message resp = Some (PyStr (exc_str e)))) \/
     (exists e,
        result = Raise e /\ is_Exception e = false /\
        lambda_handler_try pay fal sched event log = (Raise e, log') /\
        ((exists token, pay token = Raise e) \/
         (exists i model_id prompt, fal i model_id prompt = Raise e)))) /\
    ((forall token e, pay token = Raise e -> is_Exception e = true) ->
     (forall i model_id prompt e,
        fal i model_id prompt = Raise e -> is_Exception e = true) ->
     exists resp, result = Ok resp) /\
    (forall d count e,
       event = PyDict d -> image_count event = Ok count ->
       pay (token_of d) = Raise e ->
       result = if is_Exception e then Ok (response_500 e) else Raise e).
Proof.
  rewrite AppFacts.lambda_handler_unfold.
  pose proof (AppFacts.lambda_handler_try_run pay fal sched event log) as Htry.
  pose proof (AppTaskFacts.lambda_handler_try_raise pay fal sched event log) as Horigin.
  unfold token_of.
  destruct (lambda_handler_try pay fal sched event log) as [[resp | e] log'].
  - exists (Ok resp), log'. split; [reflexivity |]. split; [| split].
    + left. exists resp. split; [reflexivity |].
      inversion Htry; subst; [right; left | left]; split; reflexivity.
    + intros _ _. eauto.
    + intros d count e -> Hc Hp. inversion Htry; subst; congruence.
  - destruct (is_Exception e) eqn:HE.
    + exists (Ok (response_500 e)), log'. split; [reflexivity |].
      split; [| split].
      * left. exists (response_500 e). split; [reflexivity |].
        right; right. split; [reflexivity |]. exists e. repeat split. exact HE.
      * intros _ _. eauto.
      * intros d count e' -> Hc Hp.
        inversion Htry; subst; try congruence.
        assert (e' = e) as -> by congruence. rewrite HE. reflexivity.
    + exists (Raise e), log'. split; [reflexivity |].
      destruct (Horigin e log' eq_refl) as [Hexc | Hfrom]; [congruence |].
      split; [| split].
      * right. exists e. split; [reflexivity |]. split; [exact HE |].
        split; [reflexivity | exact Hfrom].
      * intros Hpay Hfal. exfalso.
        destruct Hfrom as [[token Hp] | (i & m & p & Hf)].
        -- apply Hpay in Hp. congruence.
        -- apply Hfal in Hf. congruence.
      * intros d count e' -> Hc Hp.
        inversion Htry; subst; try congruence.
        assert (e' = e) as -> by congruence. rewrite HE. reflexivity.
Qed.

(** [test_network_exception], read off the theorem: the exception of
    [payment.request] is an instance of [Exception] and ends up in the
    500 answer. *)
Lemma lambda_handler_answers_or_propagates_witness :
  let event := PyDict [("one_time_token", PyStr "tok_123")] in
  let e := mkExc "Exception" "Connection Timeout" in
  let pay := fun _ : PyVal => Raise e in
  let fal := fun (_ : nat) (_ _ : PyVal) => Ok (Fixtures.fake_image "http://fake.jpg") in
  exists log', lambda_handler pay fal [] event [] = (Ok (response_500 e), log').
Proof.
  cbv zeta.
  destruct (lambda_handler_answers_or_propagates
              (fun _ => Raise (mkExc "Exception" "Connection Timeout"))
              (fun _ _ _ => Ok (Fixtures.fake_image "http://fake.jpg")) []
              (PyDict [("one_time_token", PyStr "tok_123")]) [])
    as (result & log' & Hrun & _ & _ & Hpay).
  exists log'. rewrite Hrun. f_equal.
  apply (Hpay [("one_time_token", PyStr "tok_123")] (PyInt 1)
              (mkExc "Exception" "Connection Timeout")); reflexivity.
Defined.

(** [SystemExit] raised by [payment.request], and [KeyboardInterrupt]
    raised in a task and raised again by [f.result()], are not caught by
    [except Exception]: the handler returns no dict, the exception goes
    on to the caller. *)
Lemma exceptions_outside_Exception_propagate :
  let event := PyDict [("one_time_token", PyStr "tok_123")] in
  let fal := fun (_ : nat) (_ _ : PyVal) => Ok (Fixtures.fake_image "http://fake.jpg") in
  lambda_handler (fun _ => Raise (mkExc "SystemExit" "1")) fal [] event [] =
    (Raise (mkExc "SystemExit" "1"),
     [CallPayment (PyStr "tok_123") (Raise (mkExc "SystemExit" "1"))]) /\
  fst (lambda_handler (fun _ => Ok (PyInt 200))
                      (fun _ _ _ => Raise (mkExc "KeyboardInterrupt" "interrupted"))
                      [] event []) =
    Raise (mkExc "KeyboardInterrupt" "interrupted").
Proof. cbv zeta. split; reflexivity. Qed.

End AppAnswerFacts.

(** ** handlePayment: what a run leaves behind *)

Module PayRunFacts.
Import Pay PayGuard.

Lemma stripe_saved_other who f w p o k :
  k <> idempotencyKey o ->
  saved (snd (stripe who f w p o)) !! k = saved w !! k.
Proof.
  intros Hk. unfold stripe.
  destruct f, (saved w !! idempotencyKey o); cbn;
    rewrite ?lookup_insert_ne by congruence; reflexivity.
Qed.

(** What one charge request can do to the ledger: nothing, or one
    movement under the request's key, and that only for a fresh key. *)
Lemma stripe_ledger who f w p o :
  ledger (snd (stripe who f w p o)) = ledger w \/
  saved w !! idempotencyKey o = None /\
  ledger (snd (stripe who f w p o)) =
    ledger w ++ [mkMovement who (idempotencyKey o) (new_charge w p)].
Proof.
  unfold stripe.
  destruct f, (saved w !! idempotencyKey o); cbn; auto.
Qed.

(** A resolved charge request is a saved success. *)
Lemma stripe_resolved who f w p o c :
  fst (stripe who f w p o) = Resolved c ->
  saved (snd (stripe who f w p o)) !! idempotencyKey o = Some (Succeeded c).
Proof.
  unfold stripe.
  destruct f, (saved w !! idempotencyKey o) as [[c' | m'] |] eqn:Hs; cbn;
    try discriminate; intros [= <-]; rewrite ?lookup_insert_eq; auto.
Qed.

Lemma set_status_other table o status o' :
  o' <> o -> set_status table o status !! o' = table !! o'.
Proof. intros H. unfold set_status. apply lookup_insert_ne. congruence. Qed.

Lemma set_status_is_paid table o : is_paid (set_status table o "Paid") o = true.
Proof.
  unfold is_paid, set_status. rewrite lookup_insert_eq, lookup_insert_eq. reflexivity.
Qed.

(** X6: an answer with [statusCode] 200 means the order's record says
    Paid when the handler returns, whichever of the two 200 paths was
    taken. *)
Theorem ok_means_paid who event fates w resp w' :
  run who (handlePayment event) fates w = (Resolved resp, w') ->
  statusCode resp = 200 ->
  is_paid (dynamo w') (order_id event) = true.
Proof.
  rewrite PayFacts.run_handlePayment. cbv zeta. intros Hrun Hok.
  destruct (hd Served fates) as [| m1 | m1 | m1];
    try (injection Hrun as <- _; discriminate Hok).
  all: destruct (is_paid (dynamo w) (order_id event)) eqn:Hpaid;
    [injection Hrun as _ <-; exact Hpaid |].
  all: destruct (fst (stripe who (hd Served (tl fates)) w
                        (mkParams 1000 "jpy" (token event))
                        (mkOptions (order_id event)))) as [charge | m2];
    [| injection Hrun as <- _; discriminate Hok].
  all: destruct (hd Served (tl (tl fates)));
    injection Hrun as Hresp <-; try (rewrite <- Hresp in Hok; discriminate Hok);
    apply set_status_is_paid.
Qed.

Lemma ok_means_paid_witness :
  run (mkCaller 0 "abc-123") (handlePayment Fixtures.abc) [] (world (initial ∅)) =
    (Resolved (mkResponse 200 (JSON_stringify Fixtures.receipt)),
     Fixtures.after_first_request) /\
  is_paid (dynamo Fixtures.after_first_request) (order_id Fixtures.abc) = true.
Proof.
  split; [vm_compute; reflexivity |].
  apply (ok_means_paid (mkCaller 0 "abc-123") Fixtures.abc [] (world (initial ∅))
           (mkResponse 200 (JSON_stringify Fixtures.receipt))
           Fixtures.after_first_request).
  - vm_compute. reflexivity.
  - reflexivity.
Defined.

(** X7: a run for one order leaves the record and the saved processor
    result of every other order as they were, and moves money at most
    once, under this order's key and only when the processor held no
    result for it. *)
Theorem other_orders_are_untouched who event fates w o' :
  o' <> order_id event ->
  let w' := snd (run who (handlePayment event) fates w) in
  dynamo w' !! o' = dynamo w !! o' /\
  saved w' !! o' = saved w !! o' /\
  (ledger w' = ledger w \/
   saved w !! order_id event = None /\
   ledger w' = ledger w ++
     [mkMovement who (order_id event)
        (new_charge w (mkParams 1000 "jpy" (token event)))]).
Proof.
  intros Ho. cbv zeta. rewrite PayFacts.run_handlePayment. cbv zeta.
  pose proof (PayFacts.stripe_dynamo who (hd Served (tl fates)) w
                (mkParams 1000 "jpy" (token event)) (mkOptions (order_id event)))
    as Hd.
  pose proof (stripe_saved_other who (hd Served (tl fates)) w
                (mkParams 1000 "jpy" (token event)) (mkOptions (order_id event))
                o' Ho) as Hs.
  pose proof (stripe_ledger who (hd Served (tl fates)) w
                (mkParams 1000 "jpy" (token event)) (mkOptions (order_id event)))
    as Hl. cbn [idempotencyKey] in Hl.
  destruct (hd Served fates) as [| m1 | m1 | m1]; cbn [snd]; auto.
  all: destruct (is_paid (dynamo w) (order_id event)); cbn [snd]; auto.
  all: destruct (stripe who (hd Served (tl fates)) w
                   (mkParams 1000 "jpy" (token event))
                   (mkOptions (order_id event))) as [[charge | m2] w2];
    cbn [fst snd] in *; [| rewrite Hd; auto].
  all: destruct (hd Served (tl (tl fates))); cbn [snd dynamo saved ledger];
    rewrite ?set_status_other by exact Ho; rewrite ?Hd; auto.
Qed.

Lemma other_orders_are_untouched_witness :
  "o4" <> order_id Fixtures.abc /\
  let w := mkWorld Fixtures.o4_table ∅ [] [] in
  let w' := snd (run (mkCaller 0 "abc-123") (handlePayment Fixtures.abc) [] w) in
  dynamo w' !! "o4" = dynamo w !! "o4" /\
  saved w' !! "o4" = saved w !! "o4" /\
  (ledger w' = ledger w \/
   saved w !! order_id Fixtures.abc = None /\
   ledger w' = ledger w ++
     [mkMovement (mkCaller 0 "abc-123") (order_id Fixtures.abc)
        (new_charge w (mkParams 1000 "jpy" (token Fixtures.abc)))]).
Proof.
  split; [discriminate |].
  apply (other_orders_are_untouched (mkCaller 0 "abc-123") Fixtures.abc []
           (mkWorld Fixtures.o4_table ∅ [] []) "o4").
  discriminate.
Defined.

(** X8: the retry after the crash the memo walks through.  When the
    processor already holds a successful charge for the order but the
    record does not say Paid, a run whose three requests are answered
    returns that first charge as receipt, moves no money, leaves the
    processor's saved results as they were and sets the record to Paid. *)
Theorem retry_after_crash_completes who event fates w c :
  saved w !! order_id event = Some (Succeeded c) ->
  is_paid (dynamo w) (order_id event) = false ->
  answered (hd Served fates) = true ->
  answered (hd Served (tl fates)) = true ->
  answered (hd Served (tl (tl fates))) = true ->
  exists w',
    run who (handlePayment event) fates w =
      (Resolved (mkResponse 200 (JSON_stringify c)), w') /\
    ledger w' = ledger w /\
    saved w' = saved w /\
    is_paid (dynamo w') (order_id event) = true.
Proof.
  intros Hsaved Hunpaid H1 H2 H3.
  rewrite PayFacts.run_handlePayment. cbv zeta. rewrite Hunpaid.
  unfold stripe. cbn [idempotencyKey]. rewrite Hsaved.
  destruct (hd Served fates); try discriminate H1.
  all: destruct (hd Served (tl fates)); try discriminate H2.
  all: destruct (hd Served (tl (tl fates))); try discriminate H3.
  all: cbn [fst snd dynamo saved ledger gateway_calls];
    eexists; (split; [reflexivity |]); cbn;
    repeat split; apply set_status_is_paid.
Qed.

Lemma retry_after_crash_completes_witness :
  let crashed := schedule [Invoke Fixtures.abc; Deliver 0 Served; Deliver 0 Served; Crash 0]
                          (initial ∅) in
  saved (world crashed) !! "abc-123" = Some (Succeeded Fixtures.receipt) /\
  is_paid (dynamo (world crashed)) "abc-123" = false /\
  exists w',
    run (mkCaller 1 "abc-123") (handlePayment Fixtures.abc) [] (world crashed) =
      (Resolved (mkResponse 200 (JSON_stringify Fixtures.receipt)), w') /\
    ledger w' = ledger (world crashed) /\
    saved w' = saved (world crashed) /\
    is_paid (dynamo w') (order_id Fixtures.abc) = true.
Proof.
  cbv zeta. split; [vm_compute; reflexivity |]. split; [vm_compute; reflexivity |].
  apply (retry_after_crash_completes (mkCaller 1 "abc-123") Fixtures.abc []
           (world (schedule [Invoke Fixtures.abc; Deliver 0 Served; Deliver 0 Served; Crash 0]
                            (initial ∅)))
           Fixtures.receipt); vm_compute; reflexivity.
Defined.

(** *** Paid only after a charge *)

Lemma guarded_mono {A} (P Q : Prop) (p : Prog A) :
  (P -> Q) -> guarded P p -> guarded Q p.
Proof.
  intros HPQ. induction p as [a | m | X e k IH]; cbn; try exact id.
  destruct e as [o | params opts | o status].
  - intros H r. apply IH, H.
  - intros [Hc Hm]. split; [exact Hc |]. intros m. apply IH, Hm.
  - intros [HP H]. split; [apply HPQ, HP |]. intros r. apply IH, H.
Qed.

Lemma handlePayment_guarded event P : guarded P (handlePayment event).
Proof.
  unfold handlePayment. cbn. intros [[|] | m]; cbn; try exact I.
  split.
  - intros c. split; [exact I |]. intros [[] | m]; exact I.
  - intros m. exact I.
Qed.

Lemma perform_charged who f w {X} (e : Effect X) r w' o :
  perform who f w e = (r, w') -> charged w o -> charged w' o.
Proof.
  intros Hrun [c Hc]. exists c. eapply PayFacts.perform_saved; eauto.
Qed.

Lemma perform_moved who f w {X} (e : Effect X) r w' :
  (forall k c, saved w !! k = Some (Succeeded c) ->
     exists mv, mv ∈ ledger w /\ mv_key mv = k /\ mv_charge mv = c) ->
  perform who f w e = (r, w') ->
  forall k c, saved w' !! k = Some (Succeeded c) ->
    exists mv, mv ∈ ledger w' /\ mv_key mv = k /\ mv_charge mv = c.
Proof.
  intros Hold Hrun k c. destruct e as [o | p opts | o status]; cbn in Hrun.
  - destruct f; injection Hrun as _ <-; apply Hold.
  - unfold stripe in Hrun.
    assert (Hmore : forall l, saved w !! k = Some (Succeeded c) ->
              exists mv, mv ∈ ledger w ++ l /\ mv_key mv = k /\ mv_charge mv = c).
    { intros l Hk. destruct (Hold k c Hk) as (mv & Hmv & Hrest).
      exists mv. split; [apply elem_of_app; left; exact Hmv | exact Hrest]. }
    destruct (saved w !! idempotencyKey opts) as [first |] eqn:Hsaved.
    + destruct f; injection Hrun as _ <-; cbn; apply Hold.
    + destruct f as [| m | m | m]; injection Hrun as _ <-; cbn;
        try apply Hold.
      all: destruct (decide (idempotencyKey opts = k)) as [<- | Hne];
        [rewrite lookup_insert_eq | rewrite lookup_insert_ne by exact Hne];
        try apply Hmore; try apply Hold; try discriminate.
      all: intros [= <-]; eexists; split;
        [apply elem_of_app; right; apply list_elem_of_singleton; reflexivity |];
        split; reflexivity.
  - destruct f; injection Hrun as _ <-; apply Hold.
Qed.

Lemma initial_charge_inv table : ChargeInv table (initial table).
Proof.
  constructor; cbn.
  - apply PayFacts.initial_inv.
  - intros o Ho. left. exact Ho.
  - intros k c Hk. rewrite lookup_empty in Hk. discriminate.
  - constructor.
Qed.

Lemma act_charge_inv table a s : ChargeInv table s -> ChargeInv table (act a s).
Proof.
  intros [Hsys Hpaid Hmoved Hpool].
  pose proof (PayFacts.act_inv a s Hsys) as Hsys'.
  destruct a as [event | i f | i]; cbn in *.
  - constructor; cbn; try assumption.
    apply Forall_app. split; [exact Hpool |].
    constructor; [apply handlePayment_guarded | constructor].
  - destruct (pool s !! i) as [inv |] eqn:Hinv; [| constructor; assumption].
    destruct Hsys as [Hw Hbodies].
    pose proof (Forall_lookup_1 _ _ _ _ Hbodies Hinv) as Hbody. cbn beta in Hbody.
    pose proof (Forall_lookup_1 _ _ _ _ Hpool Hinv) as Hguard. cbn beta in Hguard.
    destruct (inv_prog inv) as [x | m | X e k] eqn:Hprog; cbn [advance] in *;
      try (constructor; assumption).
    destruct (perform (mkCaller i (inv_order inv)) f (world s) e) as [r w1] eqn:Hrun.
    destruct Hbody as [He _].
    constructor; cbn [world pool].
    + exact Hsys'.
    + intros o Ho. destruct e as [o1 | p opts | o1 status]; cbn in Hrun, He, Hguard.
      * assert (w1 = world s) as -> by (destruct f; injection Hrun as _ <-; reflexivity).
        apply Hpaid, Ho.
      * pose proof (PayFacts.stripe_dynamo (mkCaller i (inv_order inv)) f (world s) p opts) as Hd.
        rewrite Hrun in Hd. cbn in Hd. rewrite Hd in Ho.
        destruct (Hpaid o Ho) as [Ht | Hc]; [left; exact Ht | right].
        eapply (perform_charged _ f (world s) (stripe_charges_create p opts)); eauto.
      * destruct He as [-> ->]. destruct Hguard as [Hcharged _].
        destruct (decide (o = inv_order inv)) as [-> | Hne].
        -- right. destruct f; injection Hrun as _ <-; exact Hcharged.
        -- assert (Hsame : is_paid (dynamo w1) o = is_paid (dynamo (world s)) o).
           { unfold is_paid.
             destruct f; injection Hrun as _ <-; cbn [dynamo];
               rewrite ?set_status_other by exact Hne; reflexivity. }
           rewrite Hsame in Ho. destruct (Hpaid o Ho) as [Ht | Hc]; [left; exact Ht | right].
           destruct f; injection Hrun as _ <-; exact Hc.
    + eapply perform_moved; eauto.
    + apply Forall_insert.
      * eapply Forall_impl; [exact Hpool |]. intros inv' Hg.
        eapply guarded_mono; [| exact Hg]. eapply perform_charged; eauto.
      * cbn [inv_order inv_prog].
        assert (Hkeep : charged (world s) (inv_order inv) -> charged w1 (inv_order inv))
          by (eapply perform_charged; eauto).
        destruct e as [o1 | p opts | o1 status]; cbn in Hrun, He, Hguard.
        -- eapply guarded_mono; [exact Hkeep | apply Hguard].
        -- destruct Hguard as [Hc Hm]. destruct He as (Hkey & _).
           destruct r as [c | m].
           ++ eapply guarded_mono; [| apply Hc]. intros _. exists c.
              pose proof (stripe_resolved (mkCaller i (inv_order inv)) f (world s) p opts c) as Hres.
              rewrite Hrun in Hres. cbn [fst snd] in Hres. rewrite <- Hkey.
              apply Hres. reflexivity.
           ++ eapply guarded_mono; [exact Hkeep | apply Hm].
        -- destruct Hguard as [_ Hr]. eapply guarded_mono; [exact Hkeep | apply Hr].
  - destruct (pool s !! i) as [inv |] eqn:Hinv; [| constructor; assumption].
    constructor; cbn; try assumption.
    apply Forall_insert; [exact Hpool | exact I].
Qed.

Lemma steps_charge_inv table s s' :
  rtc step s s' -> ChargeInv table s -> ChargeInv table s'.
Proof.
  induction 1 as [s | s1 s2 s3 [a <-] _ IH]; intros Hs; [exact Hs |].
  apply IH, act_charge_inv, Hs.
Qed.

(** X9: the table says Paid only for an order that was really charged.
    Under every interleaving of invocations, crashes and lost answers
    included, an order whose record says Paid either said so in the
    table the system started from, or has a movement in the ledger made
    for it, which the processor holds as the saved result of its key. *)
Theorem paid_means_charged table s o :
  rtc step (initial table) s ->
  is_paid (dynamo (world s)) o = true ->
  is_paid table o = true \/
  exists mv, mv ∈ ledger (world s) /\
             handling (mv_caller mv) = o /\
             saved (world s) !! o = Some (Succeeded (mv_charge mv)).
Proof.
  intros Hsteps Ho.
  destruct (steps_charge_inv table _ _ Hsteps (initial_charge_inv table))
    as [[Hw _] Hpaid Hmoved _].
  destruct (Hpaid o Ho) as [Ht | [c Hc]]; [left; exact Ht | right].
  destruct (Hmoved o c Hc) as (mv & Hmv & Hkey & <-).
  exists mv. split; [exact Hmv |]. split; [| exact Hc].
  rewrite <- (move_keyed _ Hw mv Hmv). exact Hkey.
Qed.

Lemma paid_means_charged_witness :
  let s := schedule Fixtures.crash_and_retry (initial ∅) in
  is_paid (dynamo (world s)) "abc-123" = true /\
  (is_paid (∅ : gmap string Item) "abc-123" = true \/
   exists mv, mv ∈ ledger (world s) /\
              handling (mv_caller mv) = "abc-123" /\
              saved (world s) !! "abc-123" = Some (Succeeded (mv_charge mv))).
Proof.
  cbv zeta. split; [vm_compute; reflexivity |].
  apply (paid_means_charged ∅ (schedule Fixtures.crash_and_retry (initial ∅)) "abc-123").
  - apply PayFacts.schedule_steps.
  - vm_compute. reflexivity.
Defined.

End PayRunFacts.

(** ** The C++ launcher: a run against the C# stub *)

Module LauncherTests.
Import Launcher LauncherFixtures.

Example stub_run :
  fst (main stub) = 0 /\
  cout_lines (snd (main stub)) = [result_header; "{'status':'success'}"] /\
  cerr_lines (snd (main stub)) = [].
Proof. vm_compute. repeat split. Qed.

(** The same child leaving with exit code 3: what it wrote is read and
    then dropped. *)
Example failing_stub_run :
  let os := mkWindows true true (reads stub) 3 (stack stub) in
  fst (GetJsonFromCSharp os (L "PaymentApp.exe") (L "tok")) = "{}" /\
  cout_lines (snd (main os)) = [] /\
  cerr_lines (snd (main os)) = [(error_label ++ "3")%string].
Proof. vm_compute. repeat split. Qed.

End LauncherTests.

(** ** The C++ launcher: properties *)

Module LauncherFacts.
Import Launcher.

Lemma fst_bind {A B} (m : W A) (k : A -> W B) :
  fst (bind m k) = fst (k (fst m)).
Proof. unfold bind. destruct m as [a calls]. cbn. destruct (k a) as [b more]. reflexivity. Qed.

Lemma snd_bind {A B} (m : W A) (k : A -> W B) :
  snd (bind m k) = snd m ++ snd (k (fst m)).
Proof. unfold bind. destruct m as [a calls]. cbn. destruct (k a) as [b more]. reflexivity. Qed.

Lemma append_assoc (a b c : string) : ((a ++ b) ++ c = a ++ (b ++ c))%string.
Proof.
  induction a as [|x a IH]; [reflexivity |].
  change (String x ((a ++ b) ++ c) = String x (a ++ (b ++ c)))%string.
  f_equal. exact IH.
Qed.

Lemma append_nil_r (a : string) : (a ++ EmptyString)%string = a.
Proof.
  induction a as [|x a IH]; [reflexivity |].
  change (String x (a ++ EmptyString) = String x a)%string.
  f_equal. exact IH.
Qed.

Lemma string_of_list_ascii_app (a b : list Ascii.ascii) :
  string_of_list_ascii (a ++ b) =
  (string_of_list_ascii a ++ string_of_list_ascii b)%string.
Proof.
  induction a as [|x a IH]; [reflexivity |].
  change (String x (string_of_list_ascii (a ++ b)) =
          String x (string_of_list_ascii a ++ string_of_list_ascii b)%string).
  f_equal. exact IH.
Qed.

(** After [ReadFile] stored [data] and [chBuf[dwRead] = '\0'] was
    written, the buffer reads as a C string like the data alone:
    whatever it held beyond them is cut off. *)
Lemma c_str_after_read data : forall chBuf,
  (length data < length chBuf)%nat ->
  c_str (<[length data := NUL]> (data ++ drop (length data) chBuf)) = c_str data.
Proof.
  induction data as [|c data IH]; intros chBuf Hlen.
  - destruct chBuf as [|b chBuf]; [cbn in Hlen; lia |]. reflexivity.
  - destruct chBuf as [|b chBuf]; [cbn in Hlen; lia |].
    cbn [length app drop]. cbn [c_str]. cbn.
    destruct (Ascii.eqb c NUL); [reflexivity |].
    f_equal. apply IH. cbn in Hlen. lia.
Qed.

Lemma buffer_keeps_its_size data (chBuf : list Ascii.ascii) :
  (length data <= length chBuf)%nat ->
  length (<[length data := NUL]> (data ++ drop (length data) chBuf)) = length chBuf.
Proof.
  intros Hlen. rewrite length_insert, length_app, length_drop. lia.
Qed.

Lemma read_loop_result hPipe pending : forall chBuf result,
  Forall fits pending ->
  length chBuf = sizeof_chBuf ->
  fst (read_loop hPipe pending chBuf result) =
  (result ++ string_of_list_ascii (concat (map c_str (delivered pending))))%string.
Proof.
  induction pending as [|r pending IH]; intros chBuf result Hfits Hbuf.
  - cbn. rewrite append_nil_r. reflexivity.
  - cbn [read_loop]. rewrite fst_bind. inversion Hfits as [|? ? Hr Hrest]; subst.
    destruct r as [| [|c data]]; cbn [ReadFile andb length Nat.ltb Nat.leb delivered map concat].
    + cbn. rewrite append_nil_r. reflexivity.
    + cbn. rewrite append_nil_r. reflexivity.
    + cbn in Hr. unfold sizeof_chBuf in *.
      change (0 <? S (length data))%nat with true. cbn [andb].
      rewrite IH; [| exact Hrest |].
      * rewrite (c_str_after_read (c :: data)) by (cbn; lia).
        rewrite append_assoc, <- string_of_list_ascii_app. reflexivity.
      * rewrite (buffer_keeps_its_size (c :: data)) by (cbn; lia). exact Hbuf.
Qed.

(** X10: what [ReadPipeToString] returns is made of the chunks read
    before the first failed or empty read, each cut at its first NUL
    byte.  Nothing else gets in: not what the uninitialised buffer held,
    nor the tail of an earlier, longer chunk. *)
Theorem ReadPipeToString_result os hPipe :
  Forall fits (reads os) ->
  length (stack os) = sizeof_chBuf ->
  fst (ReadPipeToString os hPipe) =
  string_of_list_ascii (concat (map c_str (delivered (reads os)))).
Proof.
  intros Hfits Hstack. unfold ReadPipeToString.
  rewrite read_loop_result by assumption. reflexivity.
Qed.

Lemma ReadPipeToString_result_witness :
  let os := mkWindows true true
              [ReadGives (list_ascii_of_string "abcdef");
               ReadGives [Ascii.ascii_of_nat 103; NUL; Ascii.ascii_of_nat 104];
               ReadGives (list_ascii_of_string "i");
               ReadFails;
               ReadGives (list_ascii_of_string "lost")]
              0 (repeat (Ascii.ascii_of_nat 120) sizeof_chBuf) in
  fst (ReadPipeToString os hStdOutRead) = "abcdefgi" /\
  fst (ReadPipeToString os hStdOutRead) =
  string_of_list_ascii (concat (map c_str (delivered (reads os)))).
Proof.
  cbv zeta. split; [vm_compute; reflexivity |].
  apply (ReadPipeToString_result
           (mkWindows true true
              [ReadGives (list_ascii_of_string "abcdef");
               ReadGives [Ascii.ascii_of_nat 103; NUL; Ascii.ascii_of_nat 104];
               ReadGives (list_ascii_of_string "i");
               ReadFails;
               ReadGives (list_ascii_of_string "lost")]
              0 (repeat (Ascii.ascii_of_nat 120) sizeof_chBuf))
           hStdOutRead).
  - cbn [reads]. repeat constructor; cbn; unfold sizeof_chBuf; lia.
  - cbn [stack]. apply repeat_length.
Defined.

Lemma c_str_without_NUL chunk : NUL ∉ chunk -> c_str chunk = chunk.
Proof.
  induction chunk as [|c chunk IH]; intros Hnul; [reflexivity |].
  cbn. destruct (Ascii.eqb_spec c NUL) as [-> | _].
  - destruct Hnul. left.
  - f_equal. apply IH. intros H. apply Hnul. right. exact H.
Qed.

(** X11: when the child writes no NUL byte, [ReadPipeToString] returns
    everything read before the first failed or empty read, byte for
    byte, however the output was cut into chunks. *)
Theorem ReadPipeToString_text os hPipe :
  Forall fits (reads os) ->
  length (stack os) = sizeof_chBuf ->
  Forall (fun chunk => NUL ∉ chunk) (delivered (reads os)) ->
  fst (ReadPipeToString os hPipe) =
  string_of_list_ascii (concat (delivered (reads os))).
Proof.
  intros Hfits Hstack Htext. unfold ReadPipeToString.
  rewrite read_loop_result by assumption.
  assert (Hsame : map c_str (delivered (reads os)) = delivered (reads os)).
  { induction Htext as [|chunk chunks Hchunk _ IH]; [reflexivity |].
    cbn [map]. rewrite IH, c_str_without_NUL by exact Hchunk. reflexivity. }
  rewrite Hsame. reflexivity.
Qed.

Lemma ReadPipeToString_text_witness :
  Forall fits (reads LauncherFixtures.stub) /\
  fst (ReadPipeToString LauncherFixtures.stub hStdOutRead) =
  string_of_list_ascii (concat (delivered (reads LauncherFixtures.stub))).
Proof.
  assert (Hfits : Forall fits (reads LauncherFixtures.stub)).
  { cbn [reads LauncherFixtures.stub]. repeat constructor; cbn; unfold sizeof_chBuf; lia. }
  split; [exact Hfits |].
  apply (ReadPipeToString_text LauncherFixtures.stub hStdOutRead).
  - exact Hfits.
  - cbn [stack LauncherFixtures.stub]. apply repeat_length.
  - cbn [reads LauncherFixtures.stub delivered list_ascii_of_string].
    repeat constructor; intros H; vm_compute in H;
      repeat (apply elem_of_cons in H as [H | H]; [discriminate H |]);
      inversion H.
Defined.

(** *** Handles *)

(** The loop calls [ReadFile] on the pipe, at least once, and nothing
    else. *)
Lemma read_loop_calls hPipe pending : forall chBuf result,
  exists r rs, snd (read_loop hPipe pending chBuf result) =
               map (CallReadFile hPipe) (r :: rs).
Proof.
  induction pending as [|r pending IH]; intros chBuf result.
  - exists ReadFails, []. reflexivity.
  - cbn [read_loop]. rewrite snd_bind. cbn [call fst snd].
    destruct (ReadFile r chBuf) as [[ok chBuf'] dwRead].
    destruct (ok && (0 <? dwRead)%nat).
    + destruct (IH (<[dwRead := NUL]> chBuf')
                  (result ++ string_of_list_ascii (c_str (<[dwRead := NUL]> chBuf')))%string)
        as (r' & rs & ->).
      exists r, (r' :: rs). reflexivity.
    + exists r, []. reflexivity.
Qed.

(** The calls of one [ExecuteProcess], path by path. *)
Lemma ExecuteProcess_calls os cmd :
  snd (ExecuteProcess os cmd) =
  if CreatePipe_ok os then
    [CallCreatePipe true; CallSetHandleInformation hStdOutRead] ++
    (if CreateProcessW_ok os then
       [CallCreateProcessW (cmd ++ [0]) hStdOutWrite hStdOutWrite true;
        CallCloseHandle hStdOutWrite] ++
       snd (ReadPipeToString os hStdOutRead) ++
       [CallWaitForSingleObject hProcess;
        CallGetExitCodeProcess hProcess (exit_code os);
        CallCloseHandle hProcess; CallCloseHandle hThread]
     else
       [CallCreateProcessW (cmd ++ [0]) hStdOutWrite hStdOutWrite false;
        CallCloseHandle hStdOutWrite]) ++
    [CallCloseHandle hStdOutRead]
  else [CallCreatePipe false].
Proof.
  unfold ExecuteProcess.
  destruct (CreatePipe_ok os); [| reflexivity].
  destruct (CreateProcessW_ok os); [| reflexivity].
  unfold bind, call, ret. cbn [negb].
  destruct (ReadPipeToString os hStdOutRead) as [out calls]. cbn.
  rewrite <- !app_assoc. reflexivity.
Qed.

Lemma ExecuteProcess_result os cmd :
  fst (ExecuteProcess os cmd) =
  if CreatePipe_ok os && CreateProcessW_ok os
  then mkExeResult (int_of_DWORD (exit_code os)) (fst (ReadPipeToString os hStdOutRead))
  else mkExeResult (-1) EmptyString.
Proof.
  unfold ExecuteProcess.
  destruct (CreatePipe_ok os); [| reflexivity].
  destruct (CreateProcessW_ok os); [| reflexivity].
  unfold bind, call, ret. cbn [negb andb].
  destruct (ReadPipeToString os hStdOutRead) as [out calls]. reflexivity.
Qed.

Lemma handles_after_app open a b :
  handles_after open (a ++ b) =
  match handles_after open a with
  | Some open' => handles_after open' b
  | None => None
  end.
Proof.
  revert open. induction a as [|c a IH]; intros open; [reflexivity |].
  cbn. destruct (handle_step open c); [apply IH | reflexivity].
Qed.

Lemma handles_after_reads h rs open :
  is_open h open = true ->
  handles_after open (map (CallReadFile h) rs) = Some open.
Proof.
  intros Hopen. induction rs as [|r rs IH]; [reflexivity |].
  cbn. rewrite Hopen. exact IH.
Qed.

(** X12: [ExecuteProcess] keeps its handles in order on every path,
    whether the pipe or the process could be created or not: it closes
    each handle it was given exactly once, never closes or uses a handle
    that is not open, and holds none when it returns. *)
Theorem ExecuteProcess_closes_its_handles os cmd :
  handles_after [] (snd (ExecuteProcess os cmd)) = Some [].
Proof.
  rewrite ExecuteProcess_calls.
  destruct (CreatePipe_ok os); [| reflexivity].
  destruct (CreateProcessW_ok os); [| reflexivity].
  destruct (read_loop_calls hStdOutRead (reads os) (stack os) EmptyString)
    as (r & rs & Hcalls).
  unfold ReadPipeToString. rewrite Hcalls.
  rewrite <- !app_assoc.
  rewrite (handles_after_app [] [CallCreatePipe true; CallSetHandleInformation hStdOutRead]).
  cbn [handles_after handle_step is_open existsb HANDLE_eqb orb andb].
  rewrite (handles_after_app _ [CallCreateProcessW (cmd ++ [0]) hStdOutWrite hStdOutWrite true;
                                CallCloseHandle hStdOutWrite]).
  cbn [handles_after handle_step is_open existsb HANDLE_eqb orb andb negb
       close List.filter].
  rewrite handles_after_app, handles_after_reads by reflexivity.
  reflexivity.
Qed.

Lemma reads_closed_app_reads h rs rest :
  reads_with_write_end_closed false (map (CallReadFile h) rs ++ rest) =
  reads_with_write_end_closed false rest.
Proof. induction rs as [|r rs IH]; [reflexivity | exact IH]. Qed.

(** X13: the parent never reads the pipe while it still holds the write
    end: in every run of [ExecuteProcess] the [CloseHandle(hStdOutWrite)]
    comes before the first [ReadFile], so the loop can meet the end of
    the child's output. *)
Theorem ExecuteProcess_reads_after_closing_write_end os cmd :
  reads_with_write_end_closed false (snd (ExecuteProcess os cmd)) = true.
Proof.
  rewrite ExecuteProcess_calls.
  destruct (CreatePipe_ok os); [| reflexivity].
  destruct (CreateProcessW_ok os); [| reflexivity].
  destruct (read_loop_calls hStdOutRead (reads os) (stack os) EmptyString)
    as (r & rs & Hcalls).
  unfold ReadPipeToString. rewrite Hcalls.
  rewrite <- !app_assoc.
  change (reads_with_write_end_closed false
            (map (CallReadFile hStdOutRead) (r :: rs) ++
             [CallWaitForSingleObject hProcess;
              CallGetExitCodeProcess hProcess (exit_code os);
              CallCloseHandle hProcess; CallCloseHandle hThread] ++
             [CallCloseHandle hStdOutRead]) = true).
  rewrite (reads_closed_app_reads hStdOutRead (r :: rs)). reflexivity.
Qed.

(** *** The result handed back *)

Lemma int_of_DWORD_zero d : (int_of_DWORD d =? 0)%Z = (d mod 2 ^ 32 =? 0)%Z.
Proof.
  unfold int_of_DWORD.
  pose proof (Z.mod_pos_bound d (2 ^ 32) ltac:(lia)) as Hm.
  cbv zeta. destruct (d mod 2 ^ 32 <? 2 ^ 31)%Z eqn:Hlt; [reflexivity |].
  apply Z.ltb_ge in Hlt.
  destruct (d mod 2 ^ 32 - 2 ^ 32 =? 0)%Z eqn:H1; [apply Z.eqb_eq in H1; lia |].
  destruct (d mod 2 ^ 32 =? 0)%Z eqn:H2; [apply Z.eqb_eq in H2; lia | reflexivity].
Qed.

Lemma cerr_lines_app a b : cerr_lines (a ++ b) = cerr_lines a ++ cerr_lines b.
Proof. apply omap_app. Qed.

Lemma cout_lines_app a b : cout_lines (a ++ b) = cout_lines a ++ cout_lines b.
Proof. apply omap_app. Qed.

Lemma ExecuteProcess_is_silent os cmd :
  cout_lines (snd (ExecuteProcess os cmd)) = [] /\
  cerr_lines (snd (ExecuteProcess os cmd)) = [].
Proof.
  rewrite ExecuteProcess_calls.
  destruct (CreatePipe_ok os); [| split; reflexivity].
  destruct (CreateProcessW_ok os); [| split; reflexivity].
  destruct (read_loop_calls hStdOutRead (reads os) (stack os) EmptyString)
    as (r & rs & Hcalls).
  unfold ReadPipeToString. rewrite Hcalls.
  assert (Hreads : forall l, cout_lines (map (CallReadFile hStdOutRead) l) = [] /\
                             cerr_lines (map (CallReadFile hStdOutRead) l) = []).
  { induction l as [|x l [IH1 IH2]]; split; try reflexivity; assumption. }
  destruct (Hreads (r :: rs)) as [H1 H2].
  rewrite !cout_lines_app, !cerr_lines_app, H1, H2. split; reflexivity.
Qed.

(** X14: [GetJsonFromCSharp] hands back what was read from the child
    only when the pipe and the process were created and the exit code is
    0; in every other case it hands back "{}", whatever the child wrote,
    and writes one line to [cerr] with the exit code as a signed [int]
    (-1 when nothing was started). *)
Theorem GetJsonFromCSharp_result os exePath args :
  let started := CreatePipe_ok os && CreateProcessW_ok os in
  let succeeded := started && (exit_code os mod 2 ^ 32 =? 0)%Z in
  fst (GetJsonFromCSharp os exePath args) =
    (if succeeded then fst (ReadPipeToString os hStdOutRead) else "{}") /\
  cerr_lines (snd (GetJsonFromCSharp os exePath args)) =
    (if succeeded then []
     else [(error_label ++
            pretty (if started then int_of_DWORD (exit_code os) else -1))%string]) /\
  cout_lines (snd (GetJsonFromCSharp os exePath args)) = [].
Proof.
  cbv zeta. unfold GetJsonFromCSharp.
  rewrite fst_bind, fst_bind, !snd_bind. cbn [call fst snd].
  rewrite !cerr_lines_app, !cout_lines_app.
  match goal with
  | |- context [ExecuteProcess os ?cmd] =>
      destruct (ExecuteProcess_is_silent os cmd) as [-> ->];
      rewrite (ExecuteProcess_result os cmd)
  end.
  destruct (CreatePipe_ok os && CreateProcessW_ok os); cbn [exitCode output andb].
  - rewrite int_of_DWORD_zero.
    destruct (exit_code os mod 2 ^ 32 =? 0)%Z; repeat split.
  - repeat split.
Qed.

(** X15: [main] shows the result section on [cout], the header and then
    the text, only for a child that was started, left with exit code 0
    and wrote something other than "{}"; in every other case [cout]
    stays empty.  It returns 0 in either case. *)
Theorem main_shows_only_a_successful_result os :
  let out := fst (ReadPipeToString os hStdOutRead) in
  let succeeded :=
    CreatePipe_ok os && CreateProcessW_ok os && (exit_code os mod 2 ^ 32 =? 0)%Z in
  fst (main os) = 0 /\
  cout_lines (snd (main os)) =
    (if succeeded && negb (String.length out =? 0)%nat && negb (String.eqb out "{}")
     then [result_header; out] else []).
Proof.
  cbv zeta. unfold main.
  rewrite !fst_bind, !snd_bind. cbn [ret fst snd]. split; [reflexivity |].
  rewrite !cout_lines_app, app_nil_r.
  destruct (GetJsonFromCSharp_result os (L "PaymentApp.exe")
              (L "tok_test_12345 fal-ai/flux/dev 4")) as (-> & _ & ->).
  cbv zeta. cbn [app].
  destruct (CreatePipe_ok os && CreateProcessW_ok os && (exit_code os mod 2 ^ 32 =? 0)%Z);
    [| reflexivity].
  unfold ParseAndDisplay. cbn [andb].
  destruct ((String.length (fst (ReadPipeToString os hStdOutRead)) =? 0)%nat);
    [reflexivity |].
  destruct (String.eqb (fst (ReadPipeToString os hStdOutRead)) "{}"); reflexivity.
Qed.

End LauncherFacts.
